(** * readingList: grouping, rendering and site generation (magefile.go)

    A shallow embedding of [magefile.go] together with the parts of the Go
    libraries it calls ([time], [sort], [html], [daz], [text/template],
    [os]/[ioutil]), and the properties of the reading-list generator proved
    over it. *)

From Stdlib Require Import ZArith Lia Bool Ascii String.
From stdpp Require Import base decidable countable list sorting gmap strings pretty.

Local Open Scope Z_scope.

(* ===================================================================== *)
(** ** Machine integers *)
(* ===================================================================== *)

(** Conversions to Go's 64-bit integers, with the wrap-around written out. *)
Definition uint64 (z : Z) : Z := z mod 2 ^ 64.
Definition int64 (z : Z) : Z := (z + 2 ^ 63) mod 2 ^ 64 - 2 ^ 63.

(* ===================================================================== *)
(** ** Package [time] *)
(* ===================================================================== *)

Module time.

(** A [time.Time] without monotonic clock reading (records are decoded
    from text, [time.Date] strips it): [sec] is the number of seconds
    since January 1, year 1 00:00:00 UTC (Go's [ext]), [nsec] the
    nanoseconds within the second (Go's [wall]), and [loc] the offset in
    seconds east of UTC that the value's location has at this instant
    ([0] for UTC, Go's [nil] location). *)
Record Time : Type := mkTime { sec : Z; nsec : Z; loc : Z }.

(** A [*time.Location], as its offset east of UTC. *)
Definition Location : Type := Z.
Definition UTC : Location := 0.

(** [time.Time{}], the zero value. *)
Definition zero : Time := mkTime 0 0 0.

Definition Month : Type := Z.
Definition January : Month := 1.
Definition February : Month := 2.
Definition March : Month := 3.
Definition December : Month := 12.

Definition secondsPerMinute : Z := 60.
Definition secondsPerHour : Z := 60 * secondsPerMinute.
Definition secondsPerDay : Z := 24 * secondsPerHour.
Definition daysPer400Years : Z := 365 * 400 + 97.
Definition daysPer100Years : Z := 365 * 100 + 24.
Definition daysPer4Years : Z := 365 * 4 + 1.

Definition absoluteZeroYear : Z := -292277022399.
Definition internalYear : Z := 1.
(** [(absoluteZeroYear - internalYear) * 365.2425 * secondsPerDay] *)
Definition absoluteToInternal : Z :=
  (absoluteZeroYear - internalYear) * 3652425 * secondsPerDay / 10000.
Definition internalToAbsolute : Z := - absoluteToInternal.
Definition unixToInternal : Z :=
  (1969 * 365 + 1969 / 4 - 1969 / 100 + 1969 / 400) * secondsPerDay.
Definition internalToUnix : Z := - unixToInternal.

(** [daysBefore[m]]: days in a non-leap year before month [m+1]. *)
Definition daysBefore (m : Z) : Z :=
  nth (Z.to_nat m)
    [0; 31; 31 + 28; 31 + 28 + 31; 31 + 28 + 31 + 30;
     31 + 28 + 31 + 30 + 31; 31 + 28 + 31 + 30 + 31 + 30;
     31 + 28 + 31 + 30 + 31 + 30 + 31;
     31 + 28 + 31 + 30 + 31 + 30 + 31 + 31;
     31 + 28 + 31 + 30 + 31 + 30 + 31 + 31 + 30;
     31 + 28 + 31 + 30 + 31 + 30 + 31 + 31 + 30 + 31;
     31 + 28 + 31 + 30 + 31 + 30 + 31 + 31 + 30 + 31 + 30;
     31 + 28 + 31 + 30 + 31 + 30 + 31 + 31 + 30 + 31 + 30 + 31] 0.

(** Go's [%] truncates towards zero. *)
Definition isLeap (year : Z) : bool :=
  (Z.rem year 4 =? 0) && (negb (Z.rem year 100 =? 0) || (Z.rem year 400 =? 0)).

Definition unixSec (t : Time) : Z := sec t + internalToUnix.

(** [t.abs()]: seconds since the absolute zero year, in the location. *)
Definition abs (t : Time) : Z :=
  uint64 (unixSec t + loc t + (unixToInternal + internalToAbsolute)).

(** [absDate(abs, full)] returns [(year, month, day, yday)]; with
    [full = false] the month and day are left at zero. *)
Definition absDate (abs : Z) (full : bool) : Z * Month * Z * Z :=
  let d := abs / secondsPerDay in
  (* 400-year cycles *)
  let n := d / daysPer400Years in
  let y := 400 * n in
  let d := d - daysPer400Years * n in
  (* 100-year cycles *)
  let n := d / daysPer100Years in
  let n := n - Z.shiftr n 2 in
  let y := y + 100 * n in
  let d := d - daysPer100Years * n in
  (* 4-year cycles *)
  let n := d / daysPer4Years in
  let y := y + 4 * n in
  let d := d - daysPer4Years * n in
  (* years within a 4-year cycle *)
  let n := d / 365 in
  let n := n - Z.shiftr n 2 in
  let y := y + n in
  let d := d - 365 * n in
  let year := int64 (int64 y + absoluteZeroYear) in
  let yday := d in
  if negb full then (year, 0, 0, yday)
  else
    let day := yday in
    if isLeap year && (day =? 31 + 29 - 1) then (year, February, 29, yday)
    else
      let day := if isLeap year && (31 + 29 - 1 <? day) then day - 1 else day in
      let month := day / 31 in
      let end_ := daysBefore (month + 1) in
      let '(month, begin) :=
        if end_ <=? day then (month + 1, end_) else (month, daysBefore month) in
      (year, month + 1, day - begin + 1, yday).

Definition date (t : Time) (full : bool) : Z * Month * Z * Z := absDate (abs t) full.

Definition Year (t : Time) : Z := let '(year, _, _, _) := date t false in year.
Definition Month_ (t : Time) : Month := let '(_, month, _, _) := date t true in month.
Definition Day (t : Time) : Z := let '(_, _, day, _) := date t true in day.

(** [norm(hi, lo, base)] *)
Definition norm (hi lo base : Z) : Z * Z :=
  let '(hi, lo) :=
    if lo <? 0 then
      let n := Z.quot (- lo - 1) base + 1 in (hi - n, lo + n * base)
    else (hi, lo) in
  if base <=? lo then
    let n := Z.quot lo base in (hi + n, lo - n * base)
  else (hi, lo).

Definition daysSinceEpoch (year : Z) : Z :=
  let y := uint64 (int64 year - absoluteZeroYear) in
  let n := y / 400 in
  let y := y - 400 * n in
  let d := daysPer400Years * n in
  let n := y / 100 in
  let y := y - 100 * n in
  let d := d + daysPer100Years * n in
  let n := y / 4 in
  let y := y - 4 * n in
  let d := d + daysPer4Years * n in
  let n := y in
  d + 365 * n.

(** [time.Date(year, month, day, hour, min, sec, nsec, loc)] for a
    location of fixed offset. *)
Definition Date (year : Z) (month : Month) (day hour min sec nsec : Z)
    (loc : Location) : Time :=
  let m := month - 1 in
  let '(year, m) := norm year m 12 in
  let month := m + 1 in
  let '(sec, nsec) := norm sec nsec 1000000000 in
  let '(min, sec) := norm min sec 60 in
  let '(hour, min) := norm hour min 60 in
  let '(day, hour) := norm day hour 24 in
  let d := daysSinceEpoch year in
  let d := uint64 (d + uint64 (daysBefore (month - 1))) in
  let d := if isLeap year && (March <=? month) then uint64 (d + 1) else d in
  let d := uint64 (d + uint64 (day - 1)) in
  let abs := uint64 (d * secondsPerDay) in
  let abs := uint64 (abs + uint64 (hour * secondsPerHour + min * secondsPerMinute + sec)) in
  let unix := int64 (int64 abs + (absoluteToInternal + internalToUnix)) in
  let unix := if negb (loc =? 0) then int64 (unix - loc) else unix in
  mkTime (int64 (unix + unixToInternal)) nsec loc.

(** [t.After(u)] *)
Definition After (t u : Time) : bool :=
  (sec u <? sec t) || ((sec t =? sec u) && (nsec u <? nsec t)).

Definition longMonthNames : list string :=
  ["January"; "February"; "March"; "April"; "May"; "June"; "July";
   "August"; "September"; "October"; "November"; "December"]%string.

(** [m.String()] *)
Definition Month_String (m : Month) : string :=
  if (January <=? m) && (m <=? December)
  then nth (Z.to_nat (m - 1)) longMonthNames ""%string
  else ("%!Month(" +:+ pretty (uint64 m) +:+ ")")%string.

(** [appendInt(b, x, width)]: decimal, zero-padded to [width] digits. *)
Definition appendInt (x : Z) (width : nat) : string :=
  let digits := pretty (Z.abs x) in
  let pad := String.concat "" (replicate (width - String.length digits)%nat "0"%string) in
  let sign := if x <? 0 then "-"%string else ""%string in
  sign +:+ pad +:+ digits.

(** [t.Format("2006-01-02")] *)
Definition Format_dateFormat (t : Time) : string :=
  let '(year, month, day, _) := date t true in
  (appendInt year 4 +:+ "-" +:+ appendInt month 2 +:+ "-" +:+ appendInt day 2)%string.

End time.

(* ===================================================================== *)
(** ** Package [sort] *)
(* ===================================================================== *)

Module sort.

(** [sort.Interface]: a collection sorted through its indices. [Less] and
    [Swap] are only ever called with indices below [Len]. *)
Class Interface (T : Type) : Type := {
  Len : T → nat;
  Less : T → nat → nat → bool;
  Swap : T → nat → nat → T
}.

Section Algorithms.
Context {T : Type} `{Interface T}.

(** Inner loop of [insertionSort]:
    [for j := i; j > a && data.Less(j, j-1); j-- { data.Swap(j, j-1) }] *)
Fixpoint insertionSort_inner (data : T) (a j : nat) : T :=
  match j with
  | O => data
  | S j' =>
      if (a <? j)%nat && Less data j j'
      then insertionSort_inner (Swap data j j') a j'
      else data
  end.

(** Outer loop of [insertionSort], [n] iterations starting at [i]. *)
Fixpoint insertionSort_outer (data : T) (a i n : nat) : T :=
  match n with
  | O => data
  | S n' => insertionSort_outer (insertionSort_inner data a i) a (S i) n'
  end.

(** [insertionSort(data, a, b)] sorts [data[a:b]]. *)
Definition insertionSort (data : T) (a b : nat) : T :=
  insertionSort_outer data a (a + 1) (b - (a + 1)).

(** [for i := a + 6; i < b; i++ { if data.Less(i, i-6) { data.Swap(i, i-6) } }] *)
Fixpoint shellPass (data : T) (i n : nat) : T :=
  match n with
  | O => data
  | S n' =>
      shellPass (if Less data i (i - 6) then Swap data i (i - 6) else data) (S i) n'
  end.

(** [sort.Sort] as Go 1.19 and later run it on at most 12 elements:
    [pdqsort] goes straight to [insertionSort(data, 0, n)]. *)
Definition Sort_insertion (data : T) : T :=
  let n := Len data in
  if (n <=? 1)%nat then data else insertionSort data 0 n.

(** [sort.Sort] as Go up to 1.18 runs it on at most 12 elements: the loop
    [for b-a > 12] of [quickSort] is skipped, and what is left is one
    pass of Shell sort with gap 6 followed by [insertionSort]. *)
Definition Sort_shell (data : T) : T :=
  let n := Len data in
  if (1 <? n - 0)%nat
  then insertionSort (shellPass data (0 + 6) (n - (0 + 6))) 0 n
  else data.

End Algorithms.

(** The interface of a slice [[]A] whose [Less] compares elements with
    [less] and whose [Swap] is [e[i], e[j] = e[j], e[i]]. *)
Definition SliceInterface {A : Type} (I : Interface (list A)) (less : A → A → bool) : Prop :=
  (∀ e, Len e = length e) ∧
  (∀ e i j x y, e !! i = Some x → e !! j = Some y → Less e i j = less x y) ∧
  (∀ e i j x y, e !! i = Some x → e !! j = Some y → Swap e i j = <[j := x]> (<[i := y]> e)).

(** What [Less] must be for sorting to make sense: a strict ordering
    that is transitive, and whose negation is transitive too. *)
Record LessOrder {A : Type} (less : A → A → bool) : Prop := {
  less_irrefl : ∀ x, less x x = false;
  less_trans : ∀ x y z, less x y = true → less y z = true → less x z = true;
  less_negtrans : ∀ x y z, less x y = false → less y z = false → less x z = false
}.

(** [ascending less x y]: [y] may follow [x] in sorted order. *)
Definition ascending {A : Type} (less : A → A → bool) (x y : A) : Prop := less y x = false.

(** The contract of [sort.Sort]: the data is rearranged into ascending
    order as determined by [Less]. Nothing is promised about the order
    of elements neither of which is less than the other. *)
Definition SortContract (Sort : ∀ T, Interface T → T → T) : Prop :=
  ∀ (A : Type) (I : Interface (list A)) (less : A → A → bool),
    SliceInterface I less → LessOrder less →
    ∀ e : list A, Sort (list A) I e ≡ₚ e ∧ StronglySorted (ascending less) (Sort (list A) I e).

End sort.


(* ===================================================================== *)
(** ** State passing *)
(* ===================================================================== *)

(** Computations that thread a state of type [S]. *)
Definition State (S A : Type) : Type := S → A * S.

#[export] Instance State_ret (S : Type) : MRet (State S) := λ A a s, (a, s).
#[export] Instance State_bind (S : Type) : MBind (State S) :=
  λ A B f m s, let r := m s in f r.1 r.2.

(* ===================================================================== *)
(** ** Package [html] *)
(* ===================================================================== *)

Module html.

Definition quot : ascii := ascii_of_nat 34.

Definition escape_byte (c : ascii) : string :=
  if Ascii.eqb c "&" then "&amp;"
  else if Ascii.eqb c "'" then "&#39;"
  else if Ascii.eqb c "<" then "&lt;"
  else if Ascii.eqb c ">" then "&gt;"
  else if Ascii.eqb c quot then "&#34;"
  else String c EmptyString.

(** [html.EscapeString]: ampersand, apostrophe, less-than, greater-than
    and the double quote are replaced by entities. *)
Fixpoint EscapeString (s : string) : string :=
  match s with
  | EmptyString => EmptyString
  | String c s' => escape_byte c +:+ EscapeString s'
  end.

End html.

(* ===================================================================== *)
(** ** Package [github.com/stevelacy/daz] *)
(* ===================================================================== *)

Module daz.

(** [type Attr map[string]string] *)
Abbreviation Attr := (gmap string string).

(** [type HTML func() string]. The closures that [H] returns assemble
    strings fixed when [H] ran; an [HTML] is kept as the string its call
    returns. *)
Record HTML : Type := mkHTML { call : string }.

(** [type dangerousContents func() string] *)
Record dangerousContents : Type := mkDangerous { dangerous_call : string }.

(** [UnsafeContent(str)] *)
Definition UnsafeContent (str : string) : dangerousContents := mkDangerous str.

(** The dynamic types of the arguments that the generator passes to [H]. *)
Inductive arg : Type :=
  | arg_string (s : string)
  | arg_Attr (a : Attr)
  | arg_HTMLs (l : list HTML)
  | arg_HTML (h : HTML)
  | arg_dangerous (d : dangerousContents).

Definition selfClosingTags : list string :=
  ["area"; "br"; "hr"; "img"; "input"; "link"; "meta"].

Definition escape (s : string) : string := html.EscapeString s.

(** [subItems]: the elements of a [[]HTML], called and joined. *)
Definition subItems (attrs : list HTML) : string :=
  String.concat "" (call <$> attrs).

Section Range.

(** Go leaves the order in which [range] visits a map unspecified.
    [mapiter k kvs] is the order in which the [k]-th such loop of a run
    visits the entries [kvs] of its map; the state counts these loops. *)
Variable mapiter : nat → list (string * string) → list (string * string).

Definition rangeAttr (attributes : Attr) : State nat (list (string * string)) :=
  λ k, (mapiter k (map_to_list attributes), S k).

(** [getAttributes]: for each [k, v] of [range attributes], a space and
    the pair [escape(k)='escape(v)'] are appended to the result. *)
Definition getAttributes (attributes : Attr) : State nat string :=
  kvs ← rangeAttr attributes;
  mret (fold_left (λ res kv, res +:+ " " +:+ (escape kv.1 +:+ "='" +:+ escape kv.2 +:+ "'"))
          kvs EmptyString).

(** The loop of [H] over its variadic arguments. *)
Fixpoint H_loop (attrs : list arg) (contents : list string) (attributes : string)
    : State nat (list string * string) :=
  match attrs with
  | [] => mret (contents, attributes)
  | v :: attrs' =>
      match v with
      | arg_string v => H_loop attrs' (contents ++ [escape v]) attributes
      | arg_Attr v =>
          a ← getAttributes v;
          H_loop attrs' contents (attributes +:+ a)
      | arg_HTMLs v => H_loop attrs' (contents ++ [subItems v]) attributes
      | arg_HTML v => H_loop attrs' (contents ++ [call v]) attributes
      | arg_dangerous v => H_loop attrs' (contents ++ [dangerous_call v]) attributes
      end
  end.

(** What the closure returned by [H] produces. *)
Definition element (el : string) (contents : list string) (attributes : string) : string :=
  let elc := escape el in
  if bool_decide (elc ∈ selfClosingTags)
  then "<" +:+ elc +:+ attributes +:+ " />"
  else "<" +:+ elc +:+ attributes +:+ ">" +:+ String.concat "" contents +:+ "</" +:+ elc +:+ ">".

(** [H(el, attrs...)] *)
Definition H (el : string) (attrs : list arg) : State nat HTML :=
  r ← H_loop attrs [] EmptyString;
  mret (mkHTML (element el r.1 r.2)).

End Range.

End daz.


(* ===================================================================== *)
(** ** Errors, files and templates *)
(* ===================================================================== *)

(** Go's [error]: [None] is [nil]. *)
Definition error : Type := option string.

Module os.

(** What the generator sees of its environment: the files and directories
    below the working directory, the clock, and the number of map loops
    run so far (see [daz.rangeAttr]). *)
Record World : Type := mkWorld {
  files : gmap string string;
  dirs : gset string;
  clock : time.Time;
  iter : nat
}.

(** The part of a path before its last slash, if it has a slash. *)
Fixpoint beforeLastSlash (name : string) : option string :=
  match name with
  | EmptyString => None
  | String c rest =>
      match beforeLastSlash rest with
      | Some d => Some (String c d)
      | None => if Ascii.eqb c "/" then Some EmptyString else None
      end
  end.

(** The directory a relative path lies in; [None] is the working
    directory itself. *)
Definition parent (name : string) : option string := beforeLastSlash name.

(** [ioutil.ReadFile(name)] *)
Definition ReadFile (name : string) : State World (string * error) :=
  λ w, match files w !! name with
       | Some content => ((content, None), w)
       | None => ((EmptyString, Some ("open " +:+ name +:+ ": no such file or directory")), w)
       end.

(** [os.Mkdir(name, perm)] *)
Definition Mkdir (name : string) : State World error :=
  λ w, if bool_decide (name ∈ dirs w) || bool_decide (is_Some (files w !! name))
       then (Some ("mkdir " +:+ name +:+ ": file exists"), w)
       else (None, mkWorld (files w) ({[name]} ∪ dirs w) (clock w) (iter w)).

(** [ioutil.WriteFile(name, data, perm)]: the file is created or
    replaced; its directory must exist. *)
Definition WriteFile (name data : string) : State World error :=
  λ w, if bool_decide (name ∈ dirs w)
       then (Some ("open " +:+ name +:+ ": is a directory"), w)
       else if match parent name with Some d => bool_decide (d ∈ dirs w) | None => true end
       then (None, mkWorld (<[name := data]> (files w)) (dirs w) (clock w) (iter w))
       else (Some ("open " +:+ name +:+ ": no such file or directory"), w).

(** [time.Now()] *)
Definition Now : State World time.Time := λ w, (clock w, w).

(** Runs a rendering, which counts its map loops, in the world. *)
Definition rendering {A : Type} (m : State nat A) : State World A :=
  λ w, let r := m (iter w) in (r.1, mkWorld (files w) (dirs w) (clock w) r.2).

End os.

Module template.

(** The value the page template is executed with. *)
Record pageData : Type := mkPageData {
  Title : string;
  Content : string;
  PageTitleBar : string;
  ExtraHeadContent : string
}.

(** Package [text/template], as far as the generator uses it:
    [Parse name text] is [template.New(name).Parse(text)], and
    [Execute tpl data] gives the bytes that [tpl.Execute(buf, data)]
    writes to an empty buffer, with the error it returns. *)
Record Engine : Type := mkEngine {
  Template : Type;
  Parse : string → string → Template + string;
  Execute : Template → pageData → string * error
}.

End template.

#[export] Instance Time_eq_dec : EqDecision time.Time.
Proof. solve_decision. Defined.

#[export] Instance Time_countable : Countable time.Time.
Proof.
  refine (inj_countable' (λ t, (time.sec t, time.nsec t, time.loc t))
            (λ p, time.mkTime p.1.1 p.1.2 p.2) _).
  by intros [].
Defined.

(* ===================================================================== *)
(** ** magefile.go *)
(* ===================================================================== *)

Definition dateFormat : string := "2006-01-02".

(** [type readingListEntry struct]. A [*readingListEntry] is kept as the
    record it points to: the generator never writes through these
    pointers. *)
Record readingListEntry : Type := mkEntry {
  URL : string;
  Title : string;
  Description : string;
  Image : string;
  Date : time.Time
}.

(** [type entrySlice []*readingListEntry] *)
Abbreviation entrySlice := (list readingListEntry).

(** [type entryGroup struct { Date time.Time; Entries entrySlice }] *)
Record entryGroup : Type := mkGroup {
  group_Date : time.Time;
  group_Entries : entrySlice
}.

(** [type entryGroupSlice []*entryGroup] *)
Abbreviation entryGroupSlice := (list entryGroup).

(** [Len], [Less] and [Swap] of [entryGroupSlice]. An index out of range
    panics in Go; [sort.Sort] passes none. *)
#[export] Instance entryGroupSlice_Interface : sort.Interface entryGroupSlice := {|
  sort.Len e := length e;
  sort.Less e i j :=
    match e !! i, e !! j with
    | Some ei, Some ej => time.After (group_Date ei) (group_Date ej)
    | _, _ => false
    end;
  sort.Swap e i j :=
    match e !! i, e !! j with
    | Some ei, Some ej => <[j := ei]> (<[i := ej]> e)
    | _, _ => e
    end
|}.

(** [Len], [Less] and [Swap] of [entrySlice]. *)
#[export] Instance entrySlice_Interface : sort.Interface entrySlice := {|
  sort.Len e := length e;
  sort.Less e i j :=
    match e !! i, e !! j with
    | Some ei, Some ej => time.After (Date ei) (Date ej)
    | _, _ => false
    end;
  sort.Swap e i j :=
    match e !! i, e !! j with
    | Some ei, Some ej => <[j := ei]> (<[i := ej]> e)
    | _, _ => e
    end
|}.

Section Generator.

(** [sort.Sort] *)
Variable sort_Sort : ∀ T, sort.Interface T → T → T.

(** The order in which the loop [for _, group := range groupMap] visits
    the entries of the map. *)
Variable range_groupMap : list (time.Time * entryGroup) → list (time.Time * entryGroup).

(** The order in which the loops over attribute maps visit their entries
    (see [daz.rangeAttr]). *)
Variable mapiter : nat → list (string * string) → list (string * string).

(** Package [text/template] and the embedded [page.template.html]. *)
Variable tmpl : template.Engine.
Variable htmlPageTemplate : string.

(** [csvutil.Unmarshal(data, &entries)]: the decoded records and the error. *)
Variable csvutil_Unmarshal : string → list readingListEntry * error.

(** [renderAnchor] renders a HTML anchor tag. *)
Definition renderAnchor (text url : string) (newTab : bool) : State nat daz.HTML :=
  let attrs : daz.Attr := {[ "href" := url; "rel" := "noopener" ]} in
  let attrs := if newTab then <["target" := "_blank"]> attrs else attrs in
  daz.H mapiter "a" [daz.arg_Attr attrs; daz.arg_string text].

Definition renderUnsafeAnchor (text url : string) (newTab : bool) : State nat daz.HTML :=
  let attrs : daz.Attr := {[ "href" := url; "rel" := "noopener" ]} in
  let attrs := if newTab then <["target" := "_blank"]> attrs else attrs in
  daz.H mapiter "a" [daz.arg_Attr attrs; daz.arg_dangerous (daz.UnsafeContent text)].

(** [renderHTMLPage] renders a complete HTML page. The error of
    [tpl.Execute] is dropped. *)
Definition renderHTMLPage (title titleBar pageContent extraHeadeContent : string)
    : string * error :=
  match template.Parse tmpl "page" htmlPageTemplate with
  | inr err => (EmptyString, Some err)
  | inl tpl =>
      let outputBuf :=
        (template.Execute tmpl tpl
           (template.mkPageData title pageContent titleBar extraHeadeContent)).1 in
      (outputBuf, None)
  end.

(** [newTime] of [groupEntriesByMonth]: the first of the month of the
    entry's date, at midnight UTC. *)
Definition newTime (entry : readingListEntry) : time.Time :=
  time.Date (time.Year (Date entry)) (time.Month_ (Date entry)) 1 0 0 0 0 time.UTC.

(** The body of the first loop of [groupEntriesByMonth]. *)
Definition groupMap_add (groupMap : gmap time.Time entryGroup) (entry : readingListEntry)
    : gmap time.Time entryGroup :=
  let newTime := newTime entry in
  let groupMap :=
    match groupMap !! newTime with
    | None => <[newTime := mkGroup newTime []]> groupMap
    | Some _ => groupMap
    end in
  alter (λ group, mkGroup (group_Date group) (group_Entries group ++ [entry])) newTime groupMap.

Definition groupEntriesByMonth (entries : list readingListEntry) : entryGroupSlice :=
  let groupMap := foldl groupMap_add ∅ entries in
  let o :=
    foldl (λ o group,
             o ++ [mkGroup (group_Date group)
                     (sort_Sort entrySlice entrySlice_Interface (group_Entries group))])
      [] (range_groupMap (map_to_list groupMap)).*2 in
  sort_Sort entryGroupSlice entryGroupSlice_Interface o.

Definition headerLevel : string := "h2".

(** The body of the loop over [group.Entries] in [makeListHTML]: the list
    item of one article. *)
Definition renderArticle (article : readingListEntry) : State nat daz.HTML :=
  anchor ← renderAnchor (Title article) (URL article) false;
  titleLine ← daz.H mapiter "summary"
    [daz.arg_HTML anchor; daz.arg_string (" - " +:+ time.Format_dateFormat (Date article))];
  let detailedInfo : list daz.arg := [] in
  let descriptionContent :=
    if bool_decide (Description article ≠ EmptyString) then Description article else "<none>" in
  i ← daz.H mapiter "i" [daz.arg_string descriptionContent];
  description ← daz.H mapiter "div" [daz.arg_string "Description:"; daz.arg_HTML i];
  let detailedInfo := detailedInfo ++ [daz.arg_HTML description] in
  detailedInfo ←
    (if bool_decide (Image article ≠ EmptyString)
     then
       br ← daz.H mapiter "br" [];
       img ← daz.H mapiter "img"
         [daz.arg_Attr {[ "src" := Image article; "loading" := "lazy";
                          "style" := "max-width: 256px;" ]}];
       image ← daz.H mapiter "div" [daz.arg_string "Image:"; daz.arg_HTML br; daz.arg_HTML img];
       mret (detailedInfo ++ [daz.arg_HTML image])
     else mret detailedInfo);
  let detailedInfo := detailedInfo ++ [daz.arg_Attr {[ "class" := "description" ]}] in
  body ← daz.H mapiter "div" detailedInfo;
  details ← daz.H mapiter "details" [daz.arg_HTML titleLine; daz.arg_HTML body];
  daz.H mapiter "li" [daz.arg_HTML details].

(** The loop over [group.Entries], appending to [entries]. *)
Fixpoint renderArticles (articles : entrySlice) (entries : list daz.HTML)
    : State nat (list daz.HTML) :=
  match articles with
  | [] => mret entries
  | article :: articles' =>
      li ← renderArticle article;
      renderArticles articles' (entries ++ [li])
  end.

(** The loop over [groups], appending to [parts]. *)
Fixpoint renderGroups (groups : list entryGroup) (parts : list daz.arg)
    : State nat (list daz.arg) :=
  match groups with
  | [] => mret parts
  | group :: groups' =>
      header ← daz.H mapiter headerLevel
        [daz.arg_string (time.Month_String (time.Month_ (group_Date group)) +:+ " "
                         +:+ pretty (time.Year (group_Date group)))];
      entries ← renderArticles (group_Entries group) [];
      ul ← daz.H mapiter "ul" [daz.arg_HTMLs entries];
      renderGroups groups' (parts ++ [daz.arg_HTMLs [header; ul]])
  end.

(** [makeListHTML] generates HTML from a [[]*entryGroup] to make a list of
    articles. *)
Definition makeListHTML (groups : list entryGroup) : State nat string :=
  parts ← renderGroups groups [];
  div ← daz.H mapiter "div" parts;
  mret (daz.call div).

Definition pageTitle : string := "akp's reading list".

(** The heading of the page, built in [GenerateSite]. *)
Definition renderHead (numArticles : nat) (now : time.Time) : State nat daz.HTML :=
  h1 ← daz.H mapiter "h1" [daz.arg_string pageTitle];
  repo ← renderUnsafeAnchor "<code>codemicro/readingList</code>"
            "https://github.com/codemicro/readingList" false;
  p ← daz.H mapiter "p"
    [daz.arg_Attr {[ "class" := "information" ]};
     daz.arg_dangerous (daz.UnsafeContent
       ("A mostly complete list of articles I've read<br>There are currently "
        +:+ pretty (Z.of_nat numArticles) +:+ " entries in the list<br>Last modified "
        +:+ time.Format_dateFormat now +:+ "<br>Repo: " +:+ daz.call repo))];
  daz.H mapiter "div" [daz.arg_Attr {[ "class" := "heading" ]}; daz.arg_HTML h1; daz.arg_HTML p].

Definition GenerateSite : State os.World error :=
  let outputDir : string := ".site" in
  let readingListFile : string := "readingList.csv" in
  r ← os.ReadFile readingListFile;
  match r.2 with
  | Some err => mret (Some err)
  | None =>
      let fcont := r.1 in
      let u := csvutil_Unmarshal fcont in
      match u.2 with
      | Some err => mret (Some err)
      | None =>
          let entries := u.1 in
          let numArticles := length entries in
          let groupedEntries := groupEntriesByMonth entries in
          now ← os.Now;
          head ← os.rendering (renderHead numArticles now);
          listingHTML ← os.rendering (makeListHTML groupedEntries);
          let page := renderHTMLPage pageTitle (daz.call head) listingHTML EmptyString in
          match page.2 with
          | Some err => mret (Some err)
          | None =>
              let outputContent := page.1 in
              _ ← os.Mkdir ".site";
              os.WriteFile ".site/index.html" outputContent
          end
      end
  end.

End Generator.

(* ===================================================================== *)
(** ** Notions used to state the properties *)
(* ===================================================================== *)

(** Month keys and calendar computations are never unfolded by [simpl]. *)
Arguments newTime : simpl never.
Arguments time.Date : simpl never.
Arguments time.Year : simpl never.
Arguments time.Month_ : simpl never.
Arguments time.Format_dateFormat : simpl never.

(** The comparisons behind [entrySlice.Less] and [entryGroupSlice.Less]. *)
Definition entry_after (x y : readingListEntry) : bool := time.After (Date x) (Date y).
Definition group_after (x y : entryGroup) : bool :=
  time.After (group_Date x) (group_Date y).

(** The entries of the input whose month key is [k], in input order. *)
Definition members (k : time.Time) (entries : list readingListEntry) : list readingListEntry :=
  filter (λ e, newTime e = k) entries.

(** [descending date l]: for adjacent elements of [l], the date of the
    earlier one is not before the date of the later one. *)
Definition descending {A : Type} (date : A → time.Time) (l : list A) : Prop :=
  ∀ (i : nat) (a b : A), l !! i = Some a → l !! S i = Some b →
    time.After (date b) (date a) = false.

(** Two dates that compare equal: neither is after the other. *)
Definition same_instant (t u : time.Time) : bool :=
  negb (time.After t u) && negb (time.After u t).

(** [out] keeps the elements of [inp] whose dates compare equal in the
    order they have in [inp]. *)
Definition stable {A : Type} (date : A → time.Time) (inp out : list A) : Prop :=
  ∀ t : time.Time,
    filter (λ x, same_instant (date x) t = true) out
    = filter (λ x, same_instant (date x) t = true) inp.

(** Map iteration orders: whatever the order, each entry is visited once. *)
Definition RangeOrder {A : Type} (range : list A → list A) : Prop :=
  ∀ l, range l ≡ₚ l.

(** [infix s t]: the string [s] occurs in [t]. *)
Definition infix (s t : string) : Prop := ∃ pre post, t = pre +:+ s +:+ post.

(** [free_of c s]: the character [c] does not occur in [s]. *)
Fixpoint free_of (c : ascii) (s : string) : bool :=
  match s with
  | EmptyString => true
  | String c' rest => negb (Ascii.eqb c' c) && free_of c rest
  end.

(** What follows a [<] does not start with [sc]: the tag that opens there
    is not a [script] tag. *)
Definition opens_no_script (rest : string) : bool :=
  match rest with
  | EmptyString => false
  | String c1 rest' =>
      if Ascii.eqb c1 "s"
      then match rest' with
           | EmptyString => false
           | String c2 _ => negb (Ascii.eqb c2 "c")
           end
      else true
  end.

(** No [<] of the string opens a [script] tag. *)
Fixpoint no_script_tag (s : string) : bool :=
  match s with
  | EmptyString => true
  | String c rest =>
      (if Ascii.eqb c "<" then opens_no_script rest else true) && no_script_tag rest
  end.

(** What an argument of [daz.H] contributes to the contents of the
    element; attributes contribute nothing. *)
Definition arg_content (v : daz.arg) : option string :=
  match v with
  | daz.arg_string v => Some (daz.escape v)
  | daz.arg_Attr _ => None
  | daz.arg_HTMLs v => Some (daz.subItems v)
  | daz.arg_HTML v => Some (daz.call v)
  | daz.arg_dangerous v => Some (daz.dangerous_call v)
  end.

(** The markup that an argument of [daz.H] brings in has no [script] tag. *)
Definition arg_safe (v : daz.arg) : Prop :=
  match v with
  | daz.arg_string _ | daz.arg_Attr _ => True
  | daz.arg_HTMLs v => Forall (λ h, no_script_tag (daz.call h) = true) v
  | daz.arg_HTML v => no_script_tag (daz.call v) = true
  | daz.arg_dangerous v => no_script_tag (daz.dangerous_call v) = true
  end.

(** [always P m]: whatever the state it starts from, [m] returns a value
    that satisfies [P]. *)
Definition always {S A : Type} (P : A → Prop) (m : State S A) : Prop :=
  ∀ s, P (m s).1.

(** The text shown for the description of an article. *)
Definition descriptionContent (article : readingListEntry) : string :=
  if bool_decide (Description article ≠ EmptyString) then Description article else "<none>".

(** The anchor text of an article and the text of its description, as
    they stand in the markup: escaped, between the end of the opening tag
    and the closing tag. *)
Definition title_markup (article : readingListEntry) : string :=
  ">" +:+ html.EscapeString (Title article) +:+ "</a>".
Definition description_markup (article : readingListEntry) : string :=
  ">" +:+ html.EscapeString (descriptionContent article) +:+ "</i>".

(* ===================================================================== *)
(** ** A small template engine *)
(* ===================================================================== *)

(** An instance of [template.Engine] for templates made of text and of
    field actions [{{.Name}}] only: what [text/template] does on this
    fragment of its language. Other actions are refused by [Parse]. *)
Module minitemplate.

Inductive node : Type :=
  | Text (text : string)
  | Field (name : string).

Definition Template : Type := list node.

Definition cons_node (n : node) (r : Template + string) : Template + string :=
  match r with
  | inl t => inl (n :: t)
  | inr err => inr err
  end.

(** The node of the action with body [body]. *)
Definition action (body : string) (r : Template + string) : Template + string :=
  match body with
  | String "." (String c name) => cons_node (Field (String c name)) r
  | _ => inr ("template: page: unexpected action {{" +:+ body +:+ "}}")
  end.

(** Splits the template text at the action delimiters. [inAction] tells
    whether an action is open, [acc] is the text read since the last
    delimiter. *)
Fixpoint scan (s : string) (inAction : bool) (acc : string) : Template + string :=
  match s with
  | EmptyString =>
      if inAction then inr "template: page: unclosed action" else inl [Text acc]
  | String c rest =>
      match rest with
      | String c' rest' =>
          if inAction && Ascii.eqb c "}" && Ascii.eqb c' "}"
          then action acc (scan rest' false EmptyString)
          else if negb inAction && Ascii.eqb c "{" && Ascii.eqb c' "{"
          then cons_node (Text acc) (scan rest' true EmptyString)
          else scan rest inAction (acc +:+ String c EmptyString)
      | EmptyString => scan rest inAction (acc +:+ String c EmptyString)
      end
  end.

Definition Parse (name text : string) : Template + string := scan text false EmptyString.

(** The field [name] of the page data, if it has one. *)
Definition field (data : template.pageData) (name : string) : option string :=
  if String.eqb name "Title" then Some (template.Title data)
  else if String.eqb name "Content" then Some (template.Content data)
  else if String.eqb name "PageTitleBar" then Some (template.PageTitleBar data)
  else if String.eqb name "ExtraHeadContent" then Some (template.ExtraHeadContent data)
  else None.

(** Execution writes node after node and stops at the first field that
    the data does not have. *)
Fixpoint Execute (tpl : Template) (data : template.pageData) : string * error :=
  match tpl with
  | [] => (EmptyString, None)
  | Text text :: tpl' =>
      let r := Execute tpl' data in (text +:+ r.1, r.2)
  | Field name :: tpl' =>
      match field data name with
      | Some value => let r := Execute tpl' data in (value +:+ r.1, r.2)
      | None => (EmptyString, Some ("template: page: can't evaluate field " +:+ name))
      end
  end.

Definition engine : template.Engine := template.mkEngine Template Parse Execute.

End minitemplate.

(* ===================================================================== *)
(** ** Sample inputs and runtimes *)
(* ===================================================================== *)

(** The two rows of the end-to-end example. *)
Definition sample_a : readingListEntry :=
  mkEntry "https://a.example" "Title A" "" "" (time.Date 2023 1 5 0 0 0 0 time.UTC).
Definition sample_b : readingListEntry :=
  mkEntry "https://b.example" "Title B" "Desc B" "https://img.example/x.png"
    (time.Date 2023 2 10 0 0 0 0 time.UTC).

(** An entry without date, and one whose title is markup. *)
Definition sample_undated : readingListEntry :=
  mkEntry "https://c.example" "Title C" "" "" time.zero.
Definition sample_script : readingListEntry :=
  mkEntry "https://d.example" "<script>" "a<b" "" (time.Date 2023 1 7 0 0 0 0 time.UTC).

(** Seven entries of March 2023, two of them ([B] and [C]) on the same
    day. *)
Definition tie (title : string) (day : Z) : readingListEntry :=
  mkEntry "https://t.example" title "" "" (time.Date 2023 3 day 0 0 0 0 time.UTC).
Definition ties : list readingListEntry :=
  [tie "A" 5; tie "B" 9; tie "c" 1; tie "d" 1; tie "e" 1; tie "f" 1; tie "C" 9].

(** Two orders in which a map may be visited. *)
Definition in_order {A : Type} (l : list A) : list A := l.
Definition in_reverse {A : Type} (l : list A) : list A := reverse l.

(** A page template, one with an action left open, and one that names a
    field the page data does not have. *)
Definition sample_template : string :=
  "<html><head><title>{{.Title}}</title>{{.ExtraHeadContent}}</head><body>{{.PageTitleBar}}{{.Content}}</body></html>".
Definition malformed_template : string := "<html><title>{{.Title</title></html>".
Definition misspelt_template : string := "<html><title>{{.Titel}}</title></html>".

(** A table with the two rows of the end-to-end example, and a decoder
    that knows this table only. *)
Definition sample_table : string :=
  "url,title,description,image,date
https://a.example,Title A,,,2023-01-05T00:00:00Z
https://b.example,Title B,Desc B,https://img.example/x.png,2023-02-10T00:00:00Z
".
Definition sample_Unmarshal (data : string) : list readingListEntry * error :=
  if String.eqb data sample_table then ([sample_a; sample_b], None)
  else ([], Some "csvutil: cannot decode the table").

(** A working directory that holds the table and nothing else, on
    May 6, 2024. *)
Definition sample_world : os.World :=
  os.mkWorld {[ "readingList.csv"%string := sample_table ]} ∅
    (time.Date 2024 5 6 12 0 0 0 time.UTC) 0.

(* ===================================================================== *)
(** ** Properties of the [sort] algorithms *)
(* ===================================================================== *)

Section SortFacts.
Context {A : Type} (I : sort.Interface (list A)) (less : A → A → bool).
Hypothesis HI : sort.SliceInterface I less.
Hypothesis Hless : sort.LessOrder less.

Local Abbreviation R := (sort.ascending less).

Lemma Swap_adjacent (l1 l2 : list A) (x y : A) :
  sort.Swap (l1 ++ y :: x :: l2) (S (length l1)) (length l1) = l1 ++ x :: y :: l2.
Proof.
  destruct HI as (_ & _ & HS).
  rewrite (HS _ _ _ x y).
  - rewrite (insert_app_r_alt _ _ (S (length l1))) by lia.
    replace (S (length l1) - length l1)%nat with 1%nat by lia. simpl.
    rewrite (insert_app_r_alt _ _ (length l1)) by lia.
    by replace (length l1 - length l1)%nat with 0%nat by lia.
  - rewrite lookup_app_r by lia.
    by replace (S (length l1) - length l1)%nat with 1%nat by lia.
  - rewrite lookup_app_r by lia.
    by replace (length l1 - length l1)%nat with 0%nat by lia.
Qed.

Lemma Less_adjacent (l1 l2 : list A) (x y : A) :
  sort.Less (l1 ++ y :: x :: l2) (S (length l1)) (length l1) = less x y.
Proof.
  destruct HI as (_ & HL & _).
  apply HL.
  - rewrite lookup_app_r by lia.
    by replace (S (length l1) - length l1)%nat with 1%nat by lia.
  - rewrite lookup_app_r by lia.
    by replace (length l1 - length l1)%nat with 0%nat by lia.
Qed.

(** The inner loop moves [x] to the left past the elements it is less
    than, and stops at the first one it is not less than. *)
Lemma insertionSort_inner_spec (l1 : list A) :
  ∀ (x : A) (l2 : list A),
    ∃ p q, l1 = p ++ q ∧
      sort.insertionSort_inner (l1 ++ x :: l2) 0 (length l1) = p ++ x :: q ++ l2 ∧
      Forall (λ y, less x y = true) q ∧
      (∀ z, last p = Some z → less x z = false).
Proof.
  induction l1 as [|y l1 IH] using rev_ind; intros x l2.
  - exists [], []. repeat split; [constructor|done].
  - rewrite length_app, Nat.add_1_r. simpl.
    rewrite <-(assoc_L (++)). simpl.
    rewrite Less_adjacent.
    destruct (less x y) eqn:Hxy.
    + rewrite Swap_adjacent.
      destruct (IH x (y :: l2)) as (p & q & -> & Hr & Hq & Hp).
      exists p, (q ++ [y]). repeat split.
      * by rewrite (assoc_L (++)).
      * rewrite Hr. by rewrite <-(assoc_L (++) q).
      * apply Forall_app. split; [done|]. by constructor.
      * done.
    + exists (l1 ++ [y]), []. repeat split.
      * by rewrite (right_id_L [] (++)).
      * by rewrite <-(assoc_L (++)).
      * constructor.
      * intros z. rewrite last_snoc. by intros [= <-].
Qed.

Lemma less_asym (x y : A) : less x y = true → less y x = false.
Proof.
  intros Hxy. destruct (less y x) eqn:Hyx; [|done].
  pose proof (sort.less_trans _ Hless _ _ _ Hxy Hyx) as Hxx.
  by rewrite (sort.less_irrefl _ Hless) in Hxx.
Qed.

Lemma ascending_trans (x y z : A) : R x y → R y z → R x z.
Proof. unfold sort.ascending. intros ??. by eapply (sort.less_negtrans _ Hless). Qed.

Lemma StronglySorted_insert_middle (p q : list A) (x : A) :
  StronglySorted R (p ++ q) →
  Forall (λ y, less x y = true) q →
  (∀ z, last p = Some z → less x z = false) →
  StronglySorted R (p ++ x :: q).
Proof.
  rewrite !StronglySorted_app. intros (Hpq & Hp & Hq) Hxq Hxp.
  split; [|split; [done|]].
  - intros a b Ha Hb. apply elem_of_cons in Hb as [->|Hb]; [|by apply Hpq].
    destruct p as [|p0 p' _] using rev_ind; [by apply elem_of_nil in Ha|].
    assert (R p0 x) as Hp0 by (apply Hxp; by rewrite last_snoc).
    apply elem_of_app in Ha as [Ha|Ha%list_elem_of_singleton]; [|by subst].
    eapply ascending_trans; [|exact Hp0].
    apply StronglySorted_app in Hp as (Hp & _ & _). apply Hp; [done|by left].
  - constructor; [done|].
    eapply Forall_impl; [exact Hxq|]. intros y. apply less_asym.
Qed.

Lemma insertionSort_outer_spec (r : list A) :
  ∀ s : list A, StronglySorted R s →
    sort.insertionSort_outer (s ++ r) 0 (length s) (length r) ≡ₚ s ++ r ∧
    StronglySorted R (sort.insertionSort_outer (s ++ r) 0 (length s) (length r)).
Proof.
  induction r as [|x r IH]; intros s Hs; simpl.
  - by rewrite (right_id_L [] (++)).
  - destruct (insertionSort_inner_spec s x r) as (p & q & -> & -> & Hq & Hp).
    replace (S (length (p ++ q))) with (length (p ++ x :: q))
      by (rewrite !length_app; simpl; lia).
    replace (p ++ x :: q ++ r) with ((p ++ x :: q) ++ r)
      by (by rewrite <-(assoc_L (++))).
    destruct (IH (p ++ x :: q)) as [IH1 IH2].
    { by apply StronglySorted_insert_middle. }
    split; [|done].
    rewrite IH1. rewrite <-!(assoc_L (++)). simpl.
    apply Permutation_app_head. by rewrite Permutation_middle.
Qed.

Lemma insertionSort_spec (e : list A) :
  sort.insertionSort e 0 (length e) ≡ₚ e ∧
  StronglySorted R (sort.insertionSort e 0 (length e)).
Proof.
  unfold sort.insertionSort. destruct e as [|x e]; simpl.
  - split; [done|constructor].
  - rewrite Nat.sub_0_r.
    apply (insertionSort_outer_spec e [x]). repeat constructor.
Qed.

Lemma Sort_insertion_spec (e : list A) :
  sort.Sort_insertion e ≡ₚ e ∧ StronglySorted R (sort.Sort_insertion e).
Proof.
  unfold sort.Sort_insertion. destruct HI as (HLen & _).
  rewrite HLen. destruct (length e <=? 1)%nat eqn:Hn.
  - split; [done|]. apply Nat.leb_le in Hn.
    destruct e as [|x [|y e]]; simpl in Hn; [repeat constructor..|lia].
  - apply insertionSort_spec.
Qed.

Lemma shellPass_Permutation (n : nat) :
  ∀ (e : list A) (i : nat), (i + n ≤ length e)%nat → sort.shellPass e i n ≡ₚ e.
Proof.
  induction n as [|n IH]; intros e i Hi; simpl; [done|].
  assert (is_Some (e !! i)) as [x Hx] by (apply lookup_lt_is_Some; lia).
  assert (is_Some (e !! (i - 6)%nat)) as [y Hy] by (apply lookup_lt_is_Some; lia).
  destruct HI as (_ & _ & HS).
  destruct (sort.Less e i (i - 6)).
  - rewrite IH.
    + rewrite (HS _ _ _ x y) by done. by apply Permutation_insert_swap.
    + rewrite (HS _ _ _ x y) by done. rewrite !length_insert. lia.
  - apply IH. lia.
Qed.

Lemma Sort_shell_spec (e : list A) :
  sort.Sort_shell e ≡ₚ e ∧ StronglySorted R (sort.Sort_shell e).
Proof.
  unfold sort.Sort_shell. destruct HI as (HLen & _).
  rewrite HLen. destruct (1 <? length e - 0)%nat eqn:Hn.
  - assert (sort.shellPass e (0 + 6) (length e - (0 + 6)) ≡ₚ e) as Hp.
    { destruct (decide (6 ≤ length e)%nat).
      - apply shellPass_Permutation. lia.
      - by replace (length e - (0 + 6))%nat with 0%nat by lia. }
    destruct (insertionSort_spec (sort.shellPass e (0 + 6) (length e - (0 + 6)))) as [H1 H2].
    rewrite (Permutation_length Hp) in H1, H2.
    split; [by rewrite H1|done].
  - split; [done|]. apply Nat.ltb_ge in Hn.
    destruct e as [|x [|y e]]; simpl in Hn; [repeat constructor..|lia].
Qed.

End SortFacts.

(** Go's insertion sort honours the contract of [sort.Sort]. *)
Lemma Sort_insertion_contract : sort.SortContract (@sort.Sort_insertion).
Proof. intros A I less HI Hless e. by apply Sort_insertion_spec. Qed.

(** So does the Shell pass followed by insertion sort. *)
Lemma Sort_shell_contract : sort.SortContract (@sort.Sort_shell).
Proof. intros A I less HI Hless e. by apply Sort_shell_spec. Qed.

(* ===================================================================== *)
(** ** Properties of [time.After] and of the [Less] methods *)
(* ===================================================================== *)

Lemma After_LessOrder : sort.LessOrder time.After.
Proof.
  split; unfold time.After.
  - intros x. apply orb_false_iff. split; [lia|]. apply andb_false_iff. right. lia.
  - intros x y z H1 H2.
    apply orb_true_iff in H1 as [H1|[H1a H1b]%andb_true_iff];
    apply orb_true_iff in H2 as [H2|[H2a H2b]%andb_true_iff];
    apply orb_true_iff; [left; lia..|].
    right. apply andb_true_iff. lia.
  - intros x y z H1 H2.
    apply orb_false_iff in H1 as [H1a H1b]. apply orb_false_iff in H2 as [H2a H2b].
    apply andb_false_iff in H1b, H2b.
    apply orb_false_iff. split; [lia|]. apply andb_false_iff. lia.
Qed.

Lemma LessOrder_on {A B : Type} (f : A → B) (less : B → B → bool) :
  sort.LessOrder less → sort.LessOrder (λ x y, less (f x) (f y)).
Proof. intros [H1 H2 H3]. split; eauto. Qed.

Lemma entry_after_LessOrder : sort.LessOrder entry_after.
Proof. apply (LessOrder_on Date), After_LessOrder. Qed.

Lemma group_after_LessOrder : sort.LessOrder group_after.
Proof. apply (LessOrder_on group_Date), After_LessOrder. Qed.

Lemma entrySlice_SliceInterface : sort.SliceInterface entrySlice_Interface entry_after.
Proof.
  split_and!; simpl.
  - done.
  - intros e i j x y -> ->. done.
  - intros e i j x y -> ->. done.
Qed.

Lemma entryGroupSlice_SliceInterface :
  sort.SliceInterface entryGroupSlice_Interface group_after.
Proof.
  split_and!; simpl.
  - done.
  - intros e i j x y -> ->. done.
  - intros e i j x y -> ->. done.
Qed.

(** Strong sortedness gives the order of adjacent elements. *)
Lemma StronglySorted_descending {A : Type} (date : A → time.Time) (l : list A) :
  StronglySorted (sort.ascending (λ x y, time.After (date x) (date y))) l →
  descending date l.
Proof.
  intros Hl i a b Ha Hb.
  rewrite <-(take_drop (S i) l) in Hl.
  apply StronglySorted_app in Hl as (Hc & _ & _). apply Hc.
  - apply list_elem_of_lookup. exists i. rewrite lookup_take_lt by lia. done.
  - apply list_elem_of_lookup. exists 0%nat. rewrite lookup_drop.
    by rewrite Nat.add_0_r.
Qed.

(* ===================================================================== *)
(** ** Properties of [groupEntriesByMonth] *)
(* ===================================================================== *)

Lemma members_snoc (k : time.Time) (l : list readingListEntry) (e : readingListEntry) :
  members k (l ++ [e]) = members k l ++ (if decide (newTime e = k) then [e] else []).
Proof.
  unfold members. rewrite filter_app. f_equal.
Qed.

(** The map built by the first loop: under each month key that occurs, the
    group of the entries with that key, in input order. *)
Lemma groupMap_lookup (entries : list readingListEntry) (k : time.Time) :
  foldl groupMap_add ∅ entries !! k
  = if decide (members k entries = []) then None
    else Some (mkGroup k (members k entries)).
Proof.
  induction entries as [|e l IH] using rev_ind in k |- *.
  - simpl. by rewrite lookup_empty.
  - rewrite foldl_app. simpl. unfold groupMap_add at 1.
    set (m := foldl groupMap_add ∅ l) in *.
    rewrite members_snoc.
    destruct (decide (newTime e = k)) as [<-|Hne].
    + rewrite lookup_alter_eq.
      rewrite (decide_False (P := _ ++ [e] = [])) by (by intros [_ [=]]%app_eq_nil).
      destruct (m !! newTime e) as [g|] eqn:Hg.
      * rewrite Hg. simpl. f_equal.
        rewrite IH in Hg. destruct (decide (members (newTime e) l = [])); [done|].
        by injection Hg as <-.
      * rewrite lookup_insert_eq. simpl. f_equal.
        rewrite IH in Hg. destruct (decide (members (newTime e) l = [])) as [->|]; done.
    + rewrite lookup_alter_ne by done. rewrite (right_id_L [] (++)).
      destruct (m !! newTime e); [apply IH|].
      rewrite lookup_insert_ne by done. apply IH.
Qed.

(** The entries of all groups of the map, group after group. *)
Definition groupMap_contents (m : gmap time.Time entryGroup) : list readingListEntry :=
  concat (group_Entries <$> (map_to_list m).*2).

Lemma groupMap_add_contents (m : gmap time.Time entryGroup) (e : readingListEntry) :
  groupMap_contents (groupMap_add m e) ≡ₚ e :: groupMap_contents m.
Proof.
  unfold groupMap_contents, groupMap_add.
  destruct (m !! newTime e) as [g|] eqn:Hg.
  - rewrite <-(map_to_list_delete m _ _ Hg).
    rewrite <-(insert_delete_id m _ _ Hg) at 1.
    rewrite alter_insert_eq.
    rewrite map_to_list_insert by apply lookup_delete_eq.
    rewrite !fmap_cons. cbn [snd group_Entries concat].
    rewrite <-(assoc_L (++)). cbn [app].
    by rewrite <-Permutation_middle.
  - rewrite alter_insert_eq. rewrite map_to_list_insert by done.
    rewrite !fmap_cons. reflexivity.
Qed.

Lemma groupMap_contents_Permutation (entries : list readingListEntry) :
  groupMap_contents (foldl groupMap_add ∅ entries) ≡ₚ entries.
Proof.
  induction entries as [|e l IH] using rev_ind.
  - unfold groupMap_contents. simpl. by rewrite map_to_list_empty.
  - rewrite foldl_app. simpl. rewrite groupMap_add_contents, IH.
    by rewrite <-Permutation_cons_append.
Qed.

Lemma foldl_append_map {A B : Type} (f : A → B) (l : list A) (acc : list B) :
  foldl (λ o x, o ++ [f x]) acc l = acc ++ (f <$> l).
Proof.
  induction l as [|x l IH] in acc |- *; simpl.
  - by rewrite (right_id_L [] (++)).
  - rewrite IH. by rewrite <-(assoc_L (++)).
Qed.

Section GroupingFacts.
Variable sort_Sort : ∀ T, sort.Interface T → T → T.
Variable range_groupMap : list (time.Time * entryGroup) → list (time.Time * entryGroup).
Hypothesis HSort : sort.SortContract sort_Sort.

Local Abbreviation sortEntries := (sort_Sort entrySlice entrySlice_Interface).
Local Abbreviation sortGroups := (sort_Sort entryGroupSlice entryGroupSlice_Interface).
Local Abbreviation grouped := (groupEntriesByMonth sort_Sort range_groupMap).

Lemma sortEntries_spec (e : entrySlice) :
  sortEntries e ≡ₚ e ∧ StronglySorted (sort.ascending entry_after) (sortEntries e).
Proof. apply HSort; [apply entrySlice_SliceInterface|apply entry_after_LessOrder]. Qed.

Lemma sortGroups_spec (e : entryGroupSlice) :
  sortGroups e ≡ₚ e ∧ StronglySorted (sort.ascending group_after) (sortGroups e).
Proof. apply HSort; [apply entryGroupSlice_SliceInterface|apply group_after_LessOrder]. Qed.

(** The groups before the final sort, in the order the map was visited. *)
Definition visited (entries : list readingListEntry) : list entryGroup :=
  (λ group, mkGroup (group_Date group) (sortEntries (group_Entries group)))
    <$> (range_groupMap (map_to_list (foldl groupMap_add ∅ entries))).*2.

Lemma groupEntriesByMonth_visited (entries : list readingListEntry) :
  grouped entries = sortGroups (visited entries).
Proof. unfold groupEntriesByMonth, visited. by rewrite foldl_append_map. Qed.

Lemma groupEntriesByMonth_Permutation (entries : list readingListEntry) :
  grouped entries ≡ₚ visited entries.
Proof. rewrite groupEntriesByMonth_visited. apply sortGroups_spec. Qed.

(** The groups are sorted, whatever the order of the map. *)
Lemma groupEntriesByMonth_sorted (entries : list readingListEntry) :
  StronglySorted (sort.ascending group_after) (grouped entries).
Proof. rewrite groupEntriesByMonth_visited. apply sortGroups_spec. Qed.

Hypothesis Hrange : RangeOrder range_groupMap.

(** What the groups of the result are. *)
Lemma elem_of_groupEntriesByMonth (entries : list readingListEntry) (g : entryGroup) :
  g ∈ grouped entries ↔
  ∃ k, members k entries ≠ [] ∧ g = mkGroup k (sortEntries (members k entries)).
Proof.
  rewrite groupEntriesByMonth_Permutation. unfold visited.
  rewrite list_elem_of_fmap. setoid_rewrite list_elem_of_fmap.
  setoid_rewrite (Hrange _). split.
  - intros (g0 & -> & [k g1] & -> & Hin). simpl.
    apply elem_of_map_to_list in Hin. rewrite groupMap_lookup in Hin.
    destruct (decide (members k entries = [])); [done|].
    injection Hin as <-. by exists k.
  - intros (k & Hk & ->).
    exists (mkGroup k (members k entries)). split; [done|].
    exists (k, mkGroup k (members k entries)). split; [done|].
    apply elem_of_map_to_list. rewrite groupMap_lookup.
    by rewrite decide_False.
Qed.

Lemma visited_dates (entries : list readingListEntry) :
  group_Date <$> visited entries
  = (range_groupMap (map_to_list (foldl groupMap_add ∅ entries))).*1.
Proof.
  unfold visited. rewrite <-!list_fmap_compose.
  apply Forall_fmap_ext_1, Forall_forall. intros [k g] Hin. simpl.
  rewrite (Hrange _) in Hin.
  apply elem_of_map_to_list in Hin. rewrite groupMap_lookup in Hin.
  destruct (decide (members k entries = [])); [done|]. by injection Hin as <-.
Qed.

(** No two groups of the result have the same key. *)
Lemma groupEntriesByMonth_NoDup (entries : list readingListEntry) :
  NoDup (group_Date <$> grouped entries).
Proof.
  rewrite groupEntriesByMonth_Permutation, visited_dates, (Hrange _).
  apply NoDup_fst_map_to_list.
Qed.

(** The entries of all groups together are the input. *)
Lemma groupEntriesByMonth_contents (entries : list readingListEntry) :
  concat (group_Entries <$> grouped entries) ≡ₚ entries.
Proof.
  rewrite groupEntriesByMonth_Permutation. unfold visited.
  rewrite <-list_fmap_compose.
  transitivity (concat (group_Entries <$>
    (range_groupMap (map_to_list (foldl groupMap_add ∅ entries))).*2)).
  - generalize ((range_groupMap (map_to_list (foldl groupMap_add ∅ entries))).*2).
    intros l. induction l as [|g l IH]; simpl; [done|].
    rewrite IH. apply Permutation_app_tail, sortEntries_spec.
  - rewrite (Hrange _). apply groupMap_contents_Permutation.
Qed.

End GroupingFacts.

(* ===================================================================== *)
(** ** Month keys *)
(* ===================================================================== *)

Lemma newTime_eq (e : readingListEntry) :
  newTime e = time.Date (time.Year (Date e)) (time.Month_ (Date e)) 1 0 0 0 0 time.UTC.
Proof. unfold newTime. reflexivity. Qed.

(** A month key is a UTC time with no nanoseconds. *)
Lemma newTime_nsec_loc (e : readingListEntry) :
  time.nsec (newTime e) = 0 ∧ time.loc (newTime e) = 0.
Proof.
  unfold newTime, time.Date.
  destruct (time.norm _ _ 12) as [y m].
  change (time.norm 0 0 1000000000) with (0, 0).
  change (time.norm 0 0 60) with (0, 0).
  change (time.norm 1 0 24) with (1, 0).
  cbv beta iota zeta. split; reflexivity.
Qed.

(** Month keys that compare equal are the same key. *)
Lemma newTime_same_instant (e1 e2 : readingListEntry) :
  time.After (newTime e1) (newTime e2) = false →
  time.After (newTime e2) (newTime e1) = false →
  newTime e1 = newTime e2.
Proof.
  destruct (newTime_nsec_loc e1) as [Hn1 Hl1], (newTime_nsec_loc e2) as [Hn2 Hl2].
  destruct (newTime e1) as [s1 n1 l1], (newTime e2) as [s2 n2 l2].
  simpl in *. subst. unfold time.After. simpl.
  intros [H1 _]%orb_false_iff [H2 _]%orb_false_iff.
  f_equal. lia.
Qed.

(** The month key of an entry without date is the zero time: January 1 of
    year 1. *)
Lemma newTime_zero (e : readingListEntry) : Date e = time.zero → newTime e = time.zero.
Proof. unfold newTime. intros ->. by vm_compute. Qed.

Lemma NoDup_fmap_eq {A B : Type} (f : A → B) (l : list A) (x y : A) :
  NoDup (f <$> l) → x ∈ l → y ∈ l → f x = f y → x = y.
Proof.
  intros Hnd Hx Hy Hf.
  apply list_elem_of_lookup in Hx as [i Hi], Hy as [j Hj].
  assert (i = j) as ->.
  { eapply NoDup_lookup; [exact Hnd| |]; rewrite list_lookup_fmap.
    - by rewrite Hi.
    - rewrite Hj. simpl. by rewrite Hf. }
  congruence.
Qed.

Lemma in_order_RangeOrder {A : Type} : RangeOrder (@in_order A).
Proof. by intros l. Qed.

Lemma in_reverse_RangeOrder {A : Type} : RangeOrder (@in_reverse A).
Proof. intros l. apply reverse_Permutation. Qed.

Section GroupingOrder.
Variable sort_Sort : ∀ T, sort.Interface T → T → T.
Hypothesis HSort : sort.SortContract sort_Sort.

Local Abbreviation sortEntries := (sort_Sort entrySlice entrySlice_Interface).

(** Every group of the result is keyed by the month key of its entries. *)
Lemma groupEntriesByMonth_key range (Hrange : RangeOrder range)
    (entries : list readingListEntry) (g : entryGroup) :
  g ∈ groupEntriesByMonth sort_Sort range entries →
  group_Entries g ≡ₚ members (group_Date g) entries ∧
  ∃ e, e ∈ entries ∧ newTime e = group_Date g.
Proof.
  intros (k & Hk & ->)%elem_of_groupEntriesByMonth; [|done..].
  cbn [group_Entries group_Date]. split.
  - apply sortEntries_spec, HSort.
  - destruct (members k entries) as [|e l] eqn:Hm; [done|].
    assert (e ∈ members k entries) as He by (rewrite Hm; left).
    apply list_elem_of_filter in He as [He1 He2]. by exists e.
Qed.

(** The entries of every group are in descending order of date. *)
Lemma groupEntriesByMonth_group_descending range
    (entries : list readingListEntry) (g : entryGroup) :
  g ∈ groupEntriesByMonth sort_Sort range entries → descending Date (group_Entries g).
Proof.
  intros Hg. rewrite groupEntriesByMonth_Permutation in Hg by done.
  unfold visited in Hg. apply list_elem_of_fmap in Hg as (g0 & -> & _).
  cbn [group_Entries].
  apply StronglySorted_descending.
  apply (sortEntries_spec sort_Sort HSort).
Qed.

(** Every entry of the input lies in the group keyed by its month key,
    and in no other group. *)
Lemma groupEntriesByMonth_home range (Hrange : RangeOrder range)
    (entries : list readingListEntry) (e : readingListEntry) :
  e ∈ entries →
  ∃ g, g ∈ groupEntriesByMonth sort_Sort range entries ∧
       e ∈ group_Entries g ∧
       group_Date g = newTime e ∧
       ∀ g', g' ∈ groupEntriesByMonth sort_Sort range entries →
             e ∈ group_Entries g' → g' = g.
Proof.
  intros He.
  assert (e ∈ members (newTime e) entries) as Hm by (by apply list_elem_of_filter).
  exists (mkGroup (newTime e) (sortEntries (members (newTime e) entries))).
  split_and!.
  - apply elem_of_groupEntriesByMonth; [done..|]. exists (newTime e). split; [|done].
    intros Hnil. rewrite Hnil in Hm. by apply elem_of_nil in Hm.
  - cbn [group_Entries]. by rewrite (proj1 (sortEntries_spec sort_Sort HSort _)).
  - done.
  - intros g' Hg' He'.
    apply elem_of_groupEntriesByMonth in Hg' as (k & _ & ->); [|done..].
    cbn [group_Entries] in He'.
    rewrite (proj1 (sortEntries_spec sort_Sort HSort _)) in He'.
    apply list_elem_of_filter in He' as [<- _]. done.
Qed.

(** Groups with keys that compare equal are the same group. *)
Lemma groupEntriesByMonth_antisym range (Hrange : RangeOrder range)
    (entries : list readingListEntry) (g1 g2 : entryGroup) :
  g1 ∈ groupEntriesByMonth sort_Sort range entries →
  g2 ∈ groupEntriesByMonth sort_Sort range entries →
  group_after g1 g2 = false → group_after g2 g1 = false → g1 = g2.
Proof.
  intros H1 H2 H12 H21.
  apply (NoDup_fmap_eq group_Date (groupEntriesByMonth sort_Sort range entries));
    [by apply groupEntriesByMonth_NoDup|done..|].
  unfold group_after in H12, H21.
  destruct (groupEntriesByMonth_key _ Hrange _ _ H1) as (_ & e1 & _ & He1).
  destruct (groupEntriesByMonth_key _ Hrange _ _ H2) as (_ & e2 & _ & He2).
  rewrite <-He1, <-He2 in *. by apply newTime_same_instant.
Qed.

(** The groups are in strictly descending order of their keys. *)
Lemma groupEntriesByMonth_strict range (Hrange : RangeOrder range)
    (entries : list readingListEntry) (i j : nat) (gi gj : entryGroup) :
  (i < j)%nat →
  groupEntriesByMonth sort_Sort range entries !! i = Some gi →
  groupEntriesByMonth sort_Sort range entries !! j = Some gj →
  group_after gi gj = true.
Proof.
  intros Hij Hi Hj.
  pose proof (groupEntriesByMonth_sorted sort_Sort range HSort entries) as Hs.
  pose proof (groupEntriesByMonth_NoDup sort_Sort range HSort Hrange entries) as Hnd.
  assert (group_after gj gi = false) as Hji.
  { rewrite <-(take_drop j (groupEntriesByMonth _ _ _)) in Hs.
    apply StronglySorted_app in Hs as (Hc & _ & _). apply (Hc gi gj).
    - apply list_elem_of_lookup. exists i. by rewrite lookup_take_lt.
    - apply list_elem_of_lookup. exists 0%nat. by rewrite lookup_drop, Nat.add_0_r. }
  destruct (group_after gi gj) eqn:Hgij; [done|].
  assert (gi = gj) as ->.
  { eapply groupEntriesByMonth_antisym; try done; apply list_elem_of_lookup; eauto. }
  assert (i = j); [|lia].
  eapply NoDup_lookup; [exact Hnd|..]; rewrite list_lookup_fmap.
  - by rewrite Hi.
  - by rewrite Hj.
Qed.

(** The result does not depend on the order in which the map is visited. *)
Lemma groupEntriesByMonth_order_irrelevant range1 range2
    (Hrange1 : RangeOrder range1) (Hrange2 : RangeOrder range2)
    (entries : list readingListEntry) :
  groupEntriesByMonth sort_Sort range1 entries = groupEntriesByMonth sort_Sort range2 entries.
Proof.
  assert (groupEntriesByMonth sort_Sort range1 entries
          ≡ₚ groupEntriesByMonth sort_Sort range2 entries) as Hp.
  { rewrite !groupEntriesByMonth_Permutation by done. unfold visited.
    by rewrite (Hrange1 _), (Hrange2 _). }
  apply (StronglySorted_unique_strong (sort.ascending group_after));
    [|by apply groupEntriesByMonth_sorted..|done].
  intros g1 g2 H1 H2 H12 H21.
  rewrite <-Hp in H2. unfold sort.ascending in H12, H21.
  by apply (groupEntriesByMonth_antisym range1 Hrange1 entries).
Qed.

End GroupingOrder.

(* ===================================================================== *)
(** ** Strings *)
(* ===================================================================== *)

Lemma append_nil_l (b : string) : EmptyString +:+ b = b.
Proof. reflexivity. Qed.

Lemma append_cons (x : ascii) (a b : string) : String x a +:+ b = String x (a +:+ b).
Proof. reflexivity. Qed.

Lemma append_assoc (a b c : string) : (a +:+ b) +:+ c = a +:+ b +:+ c.
Proof. induction a as [|x a IH]; [done|]. by rewrite !append_cons, IH. Qed.

Lemma append_nil_r (a : string) : a +:+ EmptyString = a.
Proof. induction a as [|x a IH]; [done|]. by rewrite append_cons, IH. Qed.

Lemma concat_cons (x : string) (l : list string) :
  String.concat EmptyString (x :: l) = x +:+ String.concat EmptyString l.
Proof. destruct l; simpl; [by rewrite append_nil_r|done]. Qed.

Lemma concat_app (l1 l2 : list string) :
  String.concat EmptyString (l1 ++ l2)
  = String.concat EmptyString l1 +:+ String.concat EmptyString l2.
Proof.
  induction l1 as [|x l1 IH]; [done|].
  rewrite <-app_comm_cons, !concat_cons, IH. by rewrite append_assoc.
Qed.

Lemma infix_refl (s : string) : infix s s.
Proof. exists EmptyString, EmptyString. by rewrite append_nil_l, append_nil_r. Qed.

Lemma infix_app_l (s t u : string) : infix s t → infix s (u +:+ t).
Proof.
  intros (pre & post & ->). exists (u +:+ pre), post. by rewrite append_assoc.
Qed.

Lemma infix_app_r (s t u : string) : infix s t → infix s (t +:+ u).
Proof.
  intros (pre & post & ->). exists pre, (post +:+ u). by rewrite !append_assoc.
Qed.

Lemma infix_trans (s t u : string) : infix s t → infix t u → infix s u.
Proof.
  intros (pre & post & ->) (pre' & post' & ->).
  exists (pre' +:+ pre), (post +:+ post'). by rewrite !append_assoc.
Qed.

Lemma infix_concat (x : string) (l : list string) :
  x ∈ l → infix x (String.concat EmptyString l).
Proof.
  induction l as [|y l IH]; intros Hx; [by apply elem_of_nil in Hx|].
  rewrite concat_cons. apply elem_of_cons in Hx as [->|Hx].
  - apply infix_app_r, infix_refl.
  - by apply infix_app_l, IH.
Qed.

Lemma free_of_app (c : ascii) (a b : string) :
  free_of c (a +:+ b) = free_of c a && free_of c b.
Proof.
  induction a as [|x a IH]; [done|].
  rewrite append_cons. simpl. by rewrite IH, andb_assoc.
Qed.

Lemma opens_no_script_app (a b : string) :
  opens_no_script a = true → opens_no_script (a +:+ b) = true.
Proof.
  destruct a as [|c1 [|c2 a]]; rewrite ?append_cons, ?append_nil_l; simpl; try done.
  by destruct (Ascii.eqb c1 "s").
Qed.

Lemma no_script_tag_app (a b : string) :
  no_script_tag a = true → no_script_tag b = true → no_script_tag (a +:+ b) = true.
Proof.
  induction a as [|x a IH]; [done|]. rewrite append_cons. simpl.
  intros [H1 H2]%andb_true_iff Hb. apply andb_true_iff. split; [|by apply IH].
  destruct (Ascii.eqb x "<"); [|done]. by apply opens_no_script_app.
Qed.

Lemma no_script_tag_concat (l : list string) :
  Forall (λ s, no_script_tag s = true) l →
  no_script_tag (String.concat EmptyString l) = true.
Proof.
  induction 1 as [|x l Hx Hl IH]; [done|].
  rewrite concat_cons. by apply no_script_tag_app.
Qed.

Lemma free_of_no_script_tag (s : string) : free_of "<" s = true → no_script_tag s = true.
Proof.
  induction s as [|x s IH]; simpl; [done|].
  intros [H1 H2]%andb_true_iff. apply negb_true_iff in H1. rewrite H1. by apply IH.
Qed.

(** A string that passes [no_script_tag] holds no [<script]. *)
Lemma no_script_tag_sound (s : string) :
  no_script_tag s = true → ¬ infix "<script" s.
Proof.
  intros Hs (pre & post & ->).
  induction pre as [|x pre IH].
  - rewrite append_nil_l in Hs. by destruct post.
  - rewrite append_cons in Hs. simpl in Hs.
    apply andb_true_iff in Hs as [_ Hs]. by apply IH.
Qed.

(** [html.EscapeString] leaves none of the characters that delimit markup
    and attribute values. *)
Lemma EscapeString_free_of (c : ascii) (s : string) :
  c ∈ ["<"; ">"; "'"; html.quot]%char →
  free_of c (html.EscapeString s) = true.
Proof.
  intros Hc. induction s as [|x s IH]; simpl; [done|].
  rewrite free_of_app, IH, andb_true_r. unfold html.escape_byte.
  destruct (Ascii.eqb x "&") eqn:E1; [by repeat (apply elem_of_cons in Hc as [->|Hc]); [..|apply elem_of_nil in Hc]|].
  destruct (Ascii.eqb x "'") eqn:E2; [by repeat (apply elem_of_cons in Hc as [->|Hc]); [..|apply elem_of_nil in Hc]|].
  destruct (Ascii.eqb x "<") eqn:E3; [by repeat (apply elem_of_cons in Hc as [->|Hc]); [..|apply elem_of_nil in Hc]|].
  destruct (Ascii.eqb x ">") eqn:E4; [by repeat (apply elem_of_cons in Hc as [->|Hc]); [..|apply elem_of_nil in Hc]|].
  destruct (Ascii.eqb x html.quot) eqn:E5; [by repeat (apply elem_of_cons in Hc as [->|Hc]); [..|apply elem_of_nil in Hc]|].
  simpl. rewrite andb_true_r. apply negb_true_iff.
  repeat (apply elem_of_cons in Hc as [->|Hc]); [done..|by apply elem_of_nil in Hc].
Qed.

(* ===================================================================== *)
(** ** Properties of state passing and of [daz] *)
(* ===================================================================== *)

Lemma always_ret {S A : Type} (P : A → Prop) (a : A) : P a → always (S := S) P (mret a).
Proof. intros Ha s. exact Ha. Qed.

Lemma always_bind {S A B : Type} (P : A → Prop) (Q : B → Prop)
    (m : State S A) (f : A → State S B) :
  always P m → (∀ a, P a → always Q (f a)) → always Q (m ≫= f).
Proof. intros Hm Hf s. exact (Hf (m s).1 (Hm s) (m s).2). Qed.

Lemma always_impl {S A : Type} (P Q : A → Prop) (m : State S A) :
  (∀ a, P a → Q a) → always P m → always Q m.
Proof. intros HPQ Hm s. apply HPQ, Hm. Qed.

(** Whether [daz.H] closes the element [el] with [</el>]. *)
Definition closes (el : string) : Prop :=
  bool_decide (daz.escape el ∈ daz.selfClosingTags) = false.

Section DazFacts.
Variable mapiter : nat → list (string * string) → list (string * string).

Lemma attributes_fold_free (kvs : list (string * string)) (res : string) :
  free_of "<" res = true →
  free_of "<"
    (fold_left (λ res kv, res +:+ " " +:+ (daz.escape kv.1 +:+ "='" +:+ daz.escape kv.2 +:+ "'"))
       kvs res) = true.
Proof.
  induction kvs as [|kv kvs IH] in res |- *; intros Hres; [done|].
  cbn [fold_left]. apply IH.
  rewrite !free_of_app, Hres.
  unfold daz.escape. rewrite !EscapeString_free_of by (by left). done.
Qed.

(** Attributes are written with their names and values escaped. *)
Lemma getAttributes_free (attributes : daz.Attr) :
  always (λ s, free_of "<" s = true) (daz.getAttributes mapiter attributes).
Proof. intros k. by apply attributes_fold_free. Qed.

Lemma H_loop_spec (attrs : list daz.arg) :
  ∀ (contents : list string) (attributes : string) (k : nat),
    (daz.H_loop mapiter attrs contents attributes k).1.1 = contents ++ omap arg_content attrs ∧
    (free_of "<" attributes = true →
     free_of "<" (daz.H_loop mapiter attrs contents attributes k).1.2 = true).
Proof.
  induction attrs as [|v attrs IH]; intros contents attributes k.
  - split; [|done]. symmetry. apply (right_id_L [] (++)).
  - destruct v as [s|a|l|h|d].
    + destruct (IH (contents ++ [daz.escape s]) attributes k) as [IH1 IH2].
      split; [|exact IH2]. etrans; [exact IH1|]. by rewrite <-(assoc_L (++)).
    + destruct (IH contents (attributes +:+ (daz.getAttributes mapiter a k).1)
                  (daz.getAttributes mapiter a k).2) as [IH1 IH2].
      split; [exact IH1|]. intros Hfree. apply IH2.
      by rewrite free_of_app, Hfree, getAttributes_free.
    + destruct (IH (contents ++ [daz.subItems l]) attributes k) as [IH1 IH2].
      split; [|exact IH2]. etrans; [exact IH1|]. by rewrite <-(assoc_L (++)).
    + destruct (IH (contents ++ [daz.call h]) attributes k) as [IH1 IH2].
      split; [|exact IH2]. etrans; [exact IH1|]. by rewrite <-(assoc_L (++)).
    + destruct (IH (contents ++ [daz.dangerous_call d]) attributes k) as [IH1 IH2].
      split; [|exact IH2]. etrans; [exact IH1|]. by rewrite <-(assoc_L (++)).
Qed.

(** What [daz.H] returns: the element with the contents its arguments
    contribute, and attributes that hold no [<]. *)
Lemma H_element (el : string) (attrs : list daz.arg) :
  always (λ h, ∃ attributes, free_of "<" attributes = true ∧
               daz.call h = daz.element el (omap arg_content attrs) attributes)
    (daz.H mapiter el attrs).
Proof.
  intros k. destruct (H_loop_spec attrs [] EmptyString k) as [H1 H2].
  exists (daz.H_loop mapiter attrs [] EmptyString k).1.2. split; [by apply H2|].
  change (daz.call (daz.H mapiter el attrs k).1)
    with (daz.element el (daz.H_loop mapiter attrs [] EmptyString k).1.1
            (daz.H_loop mapiter attrs [] EmptyString k).1.2).
  by rewrite H1.
Qed.

Lemma element_closes (el : string) (contents : list string) (attributes : string) :
  closes el →
  daz.element el contents attributes
  = "<" +:+ daz.escape el +:+ attributes +:+ ">" +:+ String.concat EmptyString contents
    +:+ "</" +:+ daz.escape el +:+ ">".
Proof. unfold closes, daz.element. by intros ->. Qed.

Lemma element_no_script_tag (el : string) (contents : list string) (attributes : string) :
  opens_no_script (daz.escape el) = true →
  Forall (λ s, no_script_tag s = true) contents →
  free_of "<" attributes = true →
  no_script_tag (daz.element el contents attributes) = true.
Proof.
  intros Hel Hcontents Hattributes.
  assert (no_script_tag (daz.escape el) = true) as Hel'.
  { apply free_of_no_script_tag, EscapeString_free_of. by left. }
  assert (no_script_tag attributes = true) as Hattributes'
    by (by apply free_of_no_script_tag).
  unfold daz.element. destruct (bool_decide _).
  - rewrite append_cons, append_nil_l. cbn [no_script_tag Ascii.eqb Bool.eqb].
    apply andb_true_iff. split; [by apply opens_no_script_app|].
    by repeat apply no_script_tag_app.
  - rewrite append_cons, append_nil_l. cbn [no_script_tag Ascii.eqb Bool.eqb].
    apply andb_true_iff. split; [by apply opens_no_script_app|].
    repeat apply no_script_tag_app; try done.
    by apply no_script_tag_concat.
Qed.

Lemma arg_safe_content (attrs : list daz.arg) :
  Forall arg_safe attrs → Forall (λ s, no_script_tag s = true) (omap arg_content attrs).
Proof.
  induction 1 as [|v attrs Hv Hattrs IH]; [constructor|].
  destruct v as [s|a|l|h|d]; cbn [omap list_omap arg_content]; try constructor; try done.
  - apply free_of_no_script_tag, EscapeString_free_of. by left.
  - unfold daz.subItems. apply no_script_tag_concat, Forall_fmap.
    exact Hv.
Qed.

(** An element built by [daz.H] from harmless parts is harmless. *)
Lemma H_no_script_tag (el : string) (attrs : list daz.arg) :
  opens_no_script (daz.escape el) = true →
  Forall arg_safe attrs →
  always (λ h, no_script_tag (daz.call h) = true) (daz.H mapiter el attrs).
Proof.
  intros Hel Hattrs. eapply always_impl; [|apply H_element].
  intros h (attributes & Hfree & ->).
  apply element_no_script_tag; [done| |done]. by apply arg_safe_content.
Qed.

(** An element that is not self-closing shows the contents its arguments
    contribute. *)
Lemma H_infix (el : string) (attrs : list daz.arg) :
  closes el →
  always (λ h, ∀ x, x ∈ omap arg_content attrs → infix x (daz.call h))
    (daz.H mapiter el attrs).
Proof.
  intros Hel. eapply always_impl; [|apply H_element].
  intros h (attributes & _ & ->) x Hx. rewrite element_closes by done.
  do 4 apply infix_app_l. apply infix_app_r. by apply infix_concat.
Qed.

Lemma always_and {S A : Type} (P Q : A → Prop) (m : State S A) :
  always P m → always Q m → always (λ a, P a ∧ Q a) m.
Proof. intros HP HQ s. split; [apply HP|apply HQ]. Qed.

End DazFacts.

(* ===================================================================== *)
(** ** Properties of the Markup Renderer *)
(* ===================================================================== *)

(** Finds an element among the first few of a list written out. *)
Ltac pick :=
  cbn [omap list_omap arg_content app];
  first [by left | by (right; left) | by (right; right; left)].

Section RenderFacts.
Variable mapiter : nat → list (string * string) → list (string * string).

(** An element whose only content is an escaped text shows that text
    between its tags. *)
Lemma H_text_infix (el : string) (attrs : list daz.arg) (text : string) :
  closes el →
  omap arg_content attrs = [daz.escape text] →
  always (λ h, infix (">" +:+ daz.escape text +:+ "</" +:+ daz.escape el +:+ ">") (daz.call h))
    (daz.H mapiter el attrs).
Proof.
  intros Hel Hattrs. eapply always_impl; [|apply H_element].
  intros h (attributes & _ & ->). rewrite element_closes, Hattrs by done.
  exists ("<" +:+ daz.escape el +:+ attributes), EmptyString.
  cbn [String.concat]. by rewrite !append_assoc, append_nil_r.
Qed.

(** The per-article part of what is proved of the markup. *)
Definition shows (article : readingListEntry) (markup : string) : Prop :=
  infix (title_markup article) markup ∧ infix (description_markup article) markup.

Lemma shows_infix (article : readingListEntry) (s t : string) :
  shows article s → infix s t → shows article t.
Proof. intros [H1 H2] Hst. split; by eapply infix_trans. Qed.

Lemma renderAnchor_post (text url : string) (newTab : bool) :
  always (λ h, no_script_tag (daz.call h) = true ∧
               infix (">" +:+ html.EscapeString text +:+ "</a>") (daz.call h))
    (renderAnchor mapiter text url newTab).
Proof.
  unfold renderAnchor. cbv zeta. apply always_and.
  - apply H_no_script_tag; [done|]. by repeat constructor.
  - by apply (H_text_infix "a" _ text).
Qed.

Lemma renderArticle_post (article : readingListEntry) :
  always (λ li, no_script_tag (daz.call li) = true ∧ shows article (daz.call li))
    (renderArticle mapiter article).
Proof.
  unfold renderArticle.
  eapply always_bind; [apply renderAnchor_post|]. intros anchor [Ha1 Ha2].
  eapply always_bind.
  { apply always_and; [apply H_no_script_tag|apply H_infix];
      [done|by repeat constructor|done]. }
  intros titleLine [Ht1 Ht2]. cbv zeta.
  eapply always_bind.
  { apply always_and; [apply H_no_script_tag|apply (H_text_infix "i" _ (descriptionContent article))];
      [done|by repeat constructor|done|done]. }
  intros i [Hi1 Hi2].
  eapply always_bind.
  { apply always_and; [apply H_no_script_tag|apply H_infix];
      [done|by repeat constructor|done]. }
  intros description [Hd1 Hd2].
  eapply (always_bind (λ detailedInfo,
            Forall arg_safe detailedInfo ∧ daz.arg_HTML description ∈ detailedInfo)).
  { destruct (bool_decide (Image article ≠ EmptyString)).
    - eapply always_bind; [apply H_no_script_tag; [done|constructor]|]. intros br Hbr.
      eapply always_bind; [apply H_no_script_tag; [done|by repeat constructor]|].
      intros img Himg.
      eapply always_bind; [apply H_no_script_tag; [done|by repeat constructor]|].
      intros image Himage.
      apply always_ret. split; [by repeat constructor|]. pick.
    - apply always_ret. split; [by repeat constructor|]. pick. }
  intros detailedInfo [Hdi1 Hdi2].
  eapply always_bind.
  { apply always_and; [apply H_no_script_tag|apply H_infix];
      [done| |done].
    apply Forall_app. split; [done|by repeat constructor]. }
  intros body [Hb1 Hb2].
  eapply always_bind.
  { apply always_and; [apply H_no_script_tag|apply H_infix];
      [done|by repeat constructor|done]. }
  intros details [Hde1 Hde2].
  eapply always_impl;
    [|apply always_and; [apply H_no_script_tag|apply H_infix];
        [done|by repeat constructor|done]].
  intros li [Hli1 Hli2]. split; [done|].
  assert (infix (daz.call details) (daz.call li)) as Hdl by (apply Hli2; pick).
  assert (infix (daz.call titleLine) (daz.call details)) as Htd by (apply Hde2; pick).
  assert (infix (daz.call body) (daz.call details)) as Hbd by (apply Hde2; pick).
  assert (infix (daz.call anchor) (daz.call titleLine)) as Hat by (apply Ht2; pick).
  assert (infix (daz.call i) (daz.call description)) as Hid by (apply Hd2; pick).
  assert (infix (daz.call description) (daz.call body)) as Hdb.
  { apply Hb2. apply list_elem_of_omap. exists (daz.arg_HTML description).
    split; [|done]. apply elem_of_app. by left. }
  split.
  - unfold title_markup. eauto using infix_trans.
  - unfold description_markup. eauto using infix_trans.
Qed.

Lemma renderArticles_post (articles : entrySlice) :
  ∀ entries : list daz.HTML,
    always (λ es, ∃ lis, es = entries ++ lis ∧
                    Forall2 (λ article li, no_script_tag (daz.call li) = true ∧
                                          shows article (daz.call li)) articles lis)
      (renderArticles mapiter articles entries).
Proof.
  induction articles as [|article articles IH]; intros entries.
  - apply always_ret. exists []. split; [by rewrite (right_id_L [] (++))|constructor].
  - cbn [renderArticles].
    eapply always_bind; [apply renderArticle_post|]. intros li Hli.
    eapply always_impl; [|apply IH]. intros es (lis & -> & Hlis).
    exists (li :: lis). split; [by rewrite <-(assoc_L (++))|by constructor].
Qed.

Lemma renderGroups_post (groups : list entryGroup) :
  ∀ parts : list daz.arg,
    always (λ ps, ∃ new, ps = parts ++ new ∧ Forall arg_safe new ∧
                    ∀ g article, g ∈ groups → article ∈ group_Entries g →
                      ∃ x, x ∈ omap arg_content new ∧ shows article x)
      (renderGroups mapiter groups parts).
Proof.
  induction groups as [|group groups IH]; intros parts.
  - apply always_ret. exists []. split; [by rewrite (right_id_L [] (++))|].
    split; [constructor|]. intros g article Hg. by apply elem_of_nil in Hg.
  - cbn [renderGroups].
    eapply always_bind; [apply H_no_script_tag; [done|by repeat constructor]|].
    intros header Hheader.
    eapply always_bind; [apply (renderArticles_post (group_Entries group) [])|].
    intros entries (lis & -> & Hlis). rewrite (left_id_L [] (++)).
    eapply always_bind.
    { apply always_and; [apply H_no_script_tag|apply H_infix]; [done| |done].
      repeat constructor. cbn [arg_safe].
      eapply Forall2_Forall_r; [exact Hlis|]. apply Forall_forall. by intros a _ li [? _]. }
    intros ul [Hul1 Hul2].
    eapply always_impl; [|apply IH]. intros ps (new & -> & Hnew1 & Hnew2).
    exists (daz.arg_HTMLs [header; ul] :: new).
    split; [by rewrite <-(assoc_L (++))|]. split.
    { constructor; [|done]. cbn [arg_safe]. by repeat constructor. }
    intros g article Hg Harticle. apply elem_of_cons in Hg as [->|Hg].
    + exists (daz.subItems [header; ul]). split; [left|].
      apply list_elem_of_lookup in Harticle as [n Hn].
      destruct (Forall2_lookup_l _ _ _ _ _ Hlis Hn) as (li & Hli & _ & Hshows).
      apply (shows_infix _ _ _ Hshows).
      apply (infix_trans _ (daz.subItems lis)).
      { apply infix_concat, list_elem_of_fmap. exists li. split; [done|].
        by eapply list_elem_of_lookup_2. }
      apply (infix_trans _ (daz.call ul)); [apply Hul2; left|].
      apply infix_concat. pick.
    + destruct (Hnew2 g article Hg Harticle) as (x & Hx & Hshows).
      exists x. split; [by right|done].
Qed.

(** The listing holds no [script] tag, and shows the escaped title and
    description of every article of every group. *)
Lemma makeListHTML_post (groups : list entryGroup) :
  always (λ out, no_script_tag out = true ∧
                 ∀ g article, g ∈ groups → article ∈ group_Entries g → shows article out)
    (makeListHTML mapiter groups).
Proof.
  unfold makeListHTML.
  eapply always_bind; [apply (renderGroups_post groups [])|].
  intros parts (new & -> & Hnew1 & Hnew2). rewrite (left_id_L [] (++)).
  eapply always_bind.
  { apply always_and; [apply H_no_script_tag|apply H_infix]; [done|exact Hnew1|done]. }
  intros div [Hdiv1 Hdiv2]. apply always_ret. split; [done|].
  intros g article Hg Harticle.
  destruct (Hnew2 g article Hg Harticle) as (x & Hx & Hshows).
  apply (shows_infix _ _ _ Hshows). by apply Hdiv2.
Qed.

End RenderFacts.

(* ===================================================================== *)
(** ** The Grouper/Sorter: ordering, partition, ties, undated entries *)
(* ===================================================================== *)

(** C1. For every input, the groups returned by [groupEntriesByMonth] are
    in descending order of their key dates, and the entries of each group
    are in descending order of their dates: of two adjacent elements, the
    later one is never after the earlier one. This holds for every
    [sort.Sort] that honours its contract and for every order in which the
    map of groups is visited. *)
Theorem groupEntriesByMonth_descending
    (sort_Sort : ∀ T, sort.Interface T → T → T)
    (range_groupMap : list (time.Time * entryGroup) → list (time.Time * entryGroup))
    (entries : list readingListEntry) :
  sort.SortContract sort_Sort →
  descending group_Date (groupEntriesByMonth sort_Sort range_groupMap entries) ∧
  ∀ g, g ∈ groupEntriesByMonth sort_Sort range_groupMap entries →
       descending Date (group_Entries g).
Proof.
  intros HSort. split.
  - apply StronglySorted_descending. by apply groupEntriesByMonth_sorted.
  - intros g. by apply groupEntriesByMonth_group_descending.
Qed.

Lemma groupEntriesByMonth_descending_witness :
  descending group_Date (groupEntriesByMonth (@sort.Sort_insertion) in_order [sample_a; sample_b]) ∧
  ∀ g, g ∈ groupEntriesByMonth (@sort.Sort_insertion) in_order [sample_a; sample_b] →
       descending Date (group_Entries g).
Proof.
  apply (groupEntriesByMonth_descending (@sort.Sort_insertion) in_order [sample_a; sample_b]).
  exact Sort_insertion_contract.
Defined.

(** C2. For every input, [groupEntriesByMonth] partitions it: the entries
    of all groups together are the input (as multisets), no two groups
    have the same key, and every input entry lies in exactly one group,
    the one keyed by the first of its month at midnight UTC. *)
Theorem groupEntriesByMonth_partition
    (sort_Sort : ∀ T, sort.Interface T → T → T)
    (range_groupMap : list (time.Time * entryGroup) → list (time.Time * entryGroup))
    (entries : list readingListEntry) :
  sort.SortContract sort_Sort →
  RangeOrder range_groupMap →
  concat (group_Entries <$> groupEntriesByMonth sort_Sort range_groupMap entries) ≡ₚ entries ∧
  NoDup (group_Date <$> groupEntriesByMonth sort_Sort range_groupMap entries) ∧
  ∀ e, e ∈ entries →
    ∃ g, g ∈ groupEntriesByMonth sort_Sort range_groupMap entries ∧
         e ∈ group_Entries g ∧
         group_Date g
           = time.Date (time.Year (Date e)) (time.Month_ (Date e)) 1 0 0 0 0 time.UTC ∧
         ∀ g', g' ∈ groupEntriesByMonth sort_Sort range_groupMap entries →
               e ∈ group_Entries g' → g' = g.
Proof.
  intros HSort Hrange. split_and!.
  - by apply groupEntriesByMonth_contents.
  - by apply groupEntriesByMonth_NoDup.
  - intros e He.
    destruct (groupEntriesByMonth_home sort_Sort HSort _ Hrange entries e He)
      as (g & Hg & Heg & Hkey & Huniq).
    rewrite (newTime_eq e) in Hkey.
    exists g. split; [exact Hg|]. split; [exact Heg|]. split; [exact Hkey|exact Huniq].
Qed.

Lemma groupEntriesByMonth_partition_witness :
  concat (group_Entries <$> groupEntriesByMonth (@sort.Sort_insertion) in_reverse
            [sample_a; sample_b; sample_undated])
    ≡ₚ [sample_a; sample_b; sample_undated] ∧
  NoDup (group_Date <$> groupEntriesByMonth (@sort.Sort_insertion) in_reverse
           [sample_a; sample_b; sample_undated]) ∧
  ∀ e, e ∈ [sample_a; sample_b; sample_undated] →
    ∃ g, g ∈ groupEntriesByMonth (@sort.Sort_insertion) in_reverse
               [sample_a; sample_b; sample_undated] ∧
         e ∈ group_Entries g ∧
         group_Date g
           = time.Date (time.Year (Date e)) (time.Month_ (Date e)) 1 0 0 0 0 time.UTC ∧
         ∀ g', g' ∈ groupEntriesByMonth (@sort.Sort_insertion) in_reverse
                      [sample_a; sample_b; sample_undated] →
               e ∈ group_Entries g' → g' = g.
Proof.
  apply (groupEntriesByMonth_partition (@sort.Sort_insertion) in_reverse
           [sample_a; sample_b; sample_undated]).
  - exact Sort_insertion_contract.
  - exact in_reverse_RangeOrder.
Defined.

(** C3, as claimed, fails: [sort.Sort] need not keep entries with equal
    dates in input order. With the [sort.Sort] of Go up to 1.18, the seven
    entries [ties] of one month come out with [C] before [B], although
    [B] precedes [C] in the input and both have the same date. *)
Lemma groupEntriesByMonth_not_stable :
  sort.SortContract (@sort.Sort_shell) ∧
  RangeOrder (@in_order (time.Time * entryGroup)) ∧
  ∃ g, groupEntriesByMonth (@sort.Sort_shell) in_order ties = [g] ∧
       members (group_Date g) ties = ties ∧
       Title <$> group_Entries g = ["C"; "B"; "A"; "c"; "d"; "e"; "f"]%string ∧
       ¬ stable Date (members (group_Date g) ties) (group_Entries g).
Proof.
  split; [exact Sort_shell_contract|]. split; [exact in_order_RangeOrder|].
  eexists. split; [vm_compute; reflexivity|]. split; [by vm_compute|].
  split; [by vm_compute|].
  intros Hstable. specialize (Hstable (Date (tie "B" 9))).
  vm_compute in Hstable. discriminate Hstable.
Qed.

(** C3, amended. For every input, the groups are in strictly descending
    order of their key dates (no two groups have dates that compare equal,
    so nothing is left to a tie-break among groups), and the entries of
    each group are the input entries of that month in descending order of
    date. The order among entries of a group whose dates compare equal is
    whatever [sort.Sort] leaves; it need not be the input order. *)
Theorem groupEntriesByMonth_order_up_to_ties
    (sort_Sort : ∀ T, sort.Interface T → T → T)
    (range_groupMap : list (time.Time * entryGroup) → list (time.Time * entryGroup))
    (entries : list readingListEntry) :
  sort.SortContract sort_Sort →
  RangeOrder range_groupMap →
  (∀ (i j : nat) (gi gj : entryGroup), (i < j)%nat →
     groupEntriesByMonth sort_Sort range_groupMap entries !! i = Some gi →
     groupEntriesByMonth sort_Sort range_groupMap entries !! j = Some gj →
     time.After (group_Date gi) (group_Date gj) = true) ∧
  (∀ g, g ∈ groupEntriesByMonth sort_Sort range_groupMap entries →
     group_Entries g ≡ₚ members (group_Date g) entries ∧
     descending Date (group_Entries g)).
Proof.
  intros HSort Hrange. split.
  - intros i j gi gj Hij Hi Hj.
    by apply (groupEntriesByMonth_strict sort_Sort HSort range_groupMap Hrange entries i j).
  - intros g Hg. split.
    + by apply (groupEntriesByMonth_key sort_Sort HSort range_groupMap Hrange).
    + by apply (groupEntriesByMonth_group_descending sort_Sort HSort range_groupMap entries).
Qed.

Lemma groupEntriesByMonth_order_up_to_ties_witness :
  (∀ (i j : nat) (gi gj : entryGroup), (i < j)%nat →
     groupEntriesByMonth (@sort.Sort_shell) in_order (sample_a :: ties) !! i = Some gi →
     groupEntriesByMonth (@sort.Sort_shell) in_order (sample_a :: ties) !! j = Some gj →
     time.After (group_Date gi) (group_Date gj) = true) ∧
  (∀ g, g ∈ groupEntriesByMonth (@sort.Sort_shell) in_order (sample_a :: ties) →
     group_Entries g ≡ₚ members (group_Date g) (sample_a :: ties) ∧
     descending Date (group_Entries g)).
Proof.
  apply (groupEntriesByMonth_order_up_to_ties (@sort.Sort_shell) in_order (sample_a :: ties)).
  - exact Sort_shell_contract.
  - exact in_order_RangeOrder.
Defined.

(** C4, as claimed, fails: the group of an entry without date is not
    keyed by year 0. For the single entry [sample_undated], no group of
    the result holds it under a key of year 0. *)
Lemma groupEntriesByMonth_undated_not_year_0 :
  Date sample_undated = time.zero ∧
  ¬ ∃ g, g ∈ groupEntriesByMonth (@sort.Sort_insertion) in_order [sample_undated] ∧
         sample_undated ∈ group_Entries g ∧
         time.Year (group_Date g) = 0.
Proof.
  split; [done|]. intros (g & Hg & _ & Hy).
  change (groupEntriesByMonth (@sort.Sort_insertion) in_order [sample_undated])
    with [mkGroup time.zero [sample_undated]] in Hg.
  apply list_elem_of_singleton in Hg as ->. by vm_compute in Hy.
Qed.

(** C4, amended. Every entry whose date is the zero time is placed in the
    group keyed by the zero time itself, which is January 1 of year 1 (not
    year 0); all such entries of the input lie in that one group. *)
Theorem groupEntriesByMonth_undated
    (sort_Sort : ∀ T, sort.Interface T → T → T)
    (range_groupMap : list (time.Time * entryGroup) → list (time.Time * entryGroup))
    (entries : list readingListEntry) (e : readingListEntry) :
  sort.SortContract sort_Sort →
  RangeOrder range_groupMap →
  e ∈ entries →
  Date e = time.zero →
  ∃ g, g ∈ groupEntriesByMonth sort_Sort range_groupMap entries ∧
       group_Date g = time.Date 1 time.January 1 0 0 0 0 time.UTC ∧
       group_Date g = time.zero ∧
       time.Year (group_Date g) = 1 ∧
       time.Month_ (group_Date g) = time.January ∧
       (∀ e', e' ∈ entries → Date e' = time.zero → e' ∈ group_Entries g) ∧
       (∀ g', g' ∈ groupEntriesByMonth sort_Sort range_groupMap entries →
              (∃ e', e' ∈ group_Entries g' ∧ Date e' = time.zero) → g' = g).
Proof.
  intros HSort Hrange He Hzero.
  destruct (groupEntriesByMonth_home sort_Sort HSort _ Hrange entries e He)
    as (g & Hg & Heg & Hkey & _).
  rewrite (newTime_zero e Hzero) in Hkey.
  exists g. rewrite Hkey. split_and!; try done.
  - intros e' He' Hzero'.
    destruct (groupEntriesByMonth_home sort_Sort HSort _ Hrange entries e' He')
      as (g' & Hg' & Heg' & Hkey' & _).
    rewrite (newTime_zero e' Hzero') in Hkey'.
    assert (g' = g) as <-; [|done].
    apply (NoDup_fmap_eq group_Date (groupEntriesByMonth sort_Sort range_groupMap entries));
      [by apply groupEntriesByMonth_NoDup|done..|congruence].
  - intros g' Hg' (e' & Heg' & Hzero').
    assert (e' ∈ entries) as He'.
    { destruct (groupEntriesByMonth_key sort_Sort HSort range_groupMap Hrange entries g' Hg')
        as [Hperm _].
      rewrite Hperm in Heg'. by apply list_elem_of_filter in Heg' as [_ ?]. }
    destruct (groupEntriesByMonth_home sort_Sort HSort _ Hrange entries e' He')
      as (g'' & Hg'' & Heg'' & Hkey'' & Huniq).
    rewrite (newTime_zero e' Hzero') in Hkey''.
    rewrite (Huniq g' Hg' Heg').
    apply (NoDup_fmap_eq group_Date (groupEntriesByMonth sort_Sort range_groupMap entries));
      [by apply groupEntriesByMonth_NoDup|done..|congruence].
Qed.

Lemma groupEntriesByMonth_undated_witness :
  ∃ g, g ∈ groupEntriesByMonth (@sort.Sort_insertion) in_order [sample_a; sample_undated] ∧
       group_Date g = time.Date 1 time.January 1 0 0 0 0 time.UTC ∧
       group_Date g = time.zero ∧
       time.Year (group_Date g) = 1 ∧
       time.Month_ (group_Date g) = time.January ∧
       (∀ e', e' ∈ [sample_a; sample_undated] → Date e' = time.zero → e' ∈ group_Entries g) ∧
       (∀ g', g' ∈ groupEntriesByMonth (@sort.Sort_insertion) in_order
                     [sample_a; sample_undated] →
              (∃ e', e' ∈ group_Entries g' ∧ Date e' = time.zero) → g' = g).
Proof.
  apply (groupEntriesByMonth_undated (@sort.Sort_insertion) in_order
           [sample_a; sample_undated] sample_undated).
  - exact Sort_insertion_contract.
  - exact in_order_RangeOrder.
  - right. left.
  - reflexivity.
Defined.

(* ===================================================================== *)
(** ** The Markup Renderer: escaping, the empty listing, repeated runs *)
(* ===================================================================== *)

(** C5. For every list of groups, and whatever the order in which
    attribute maps are visited, the listing made by [makeListHTML] shows
    the title of every article HTML-escaped as the text of its anchor and
    its description (or the placeholder) HTML-escaped as the text of its
    [i] element; escaped text holds no markup character; and the listing
    holds no [<script]. In particular an article titled [<script>] shows
    as [&lt;script&gt;]. *)
Theorem makeListHTML_escapes
    (mapiter : nat → list (string * string) → list (string * string))
    (groups : list entryGroup) (k : nat) :
  (∀ g article, g ∈ groups → article ∈ group_Entries g →
     infix (">" +:+ html.EscapeString (Title article) +:+ "</a>")
       (makeListHTML mapiter groups k).1 ∧
     infix (">" +:+ html.EscapeString (descriptionContent article) +:+ "</i>")
       (makeListHTML mapiter groups k).1) ∧
  (∀ (s : string) (c : ascii), c ∈ ["<"; ">"; "'"; html.quot]%char →
     free_of c (html.EscapeString s) = true) ∧
  ¬ infix "<script" (makeListHTML mapiter groups k).1 ∧
  (∀ g article, g ∈ groups → article ∈ group_Entries g → Title article = "<script>"%string →
     infix ">&lt;script&gt;</a>" (makeListHTML mapiter groups k).1).
Proof.
  destruct (makeListHTML_post mapiter groups k) as [Hsafe Hshows].
  split_and!.
  - intros g article Hg Harticle. exact (Hshows g article Hg Harticle).
  - intros s c Hc. by apply EscapeString_free_of.
  - by apply no_script_tag_sound.
  - intros g article Hg Harticle Htitle.
    destruct (Hshows g article Hg Harticle) as [Ht _].
    unfold title_markup in Ht. rewrite Htitle in Ht. exact Ht.
Qed.

(** C6, as claimed, fails: the listing of no groups is not the empty
    string. *)
Lemma makeListHTML_nil_not_empty :
  (makeListHTML (λ _, in_order) [] 0%nat).1 ≠ EmptyString.
Proof. by vm_compute. Qed.

(** C6, amended. For the empty list of groups, [makeListHTML] returns the
    fragment [<div></div>], a [div] element without children, and visits
    no map. *)
Theorem makeListHTML_nil
    (mapiter : nat → list (string * string) → list (string * string)) (k : nat) :
  makeListHTML mapiter [] k = ("<div></div>"%string, k).
Proof. reflexivity. Qed.

(** C7, as claimed, fails: [daz] writes the attributes of a tag in the
    order in which it visits a Go map, which differs from run to run. Two
    runs on the one entry [sample_a] that visit the attribute maps in
    opposite orders give different listings. *)
Lemma pipeline_not_deterministic :
  RangeOrder (@in_order (string * string)) ∧
  RangeOrder (@in_reverse (string * string)) ∧
  (makeListHTML (λ _, in_order)
     (groupEntriesByMonth (@sort.Sort_insertion) in_order [sample_a]) 0%nat).1
  ≠ (makeListHTML (λ _, in_reverse)
       (groupEntriesByMonth (@sort.Sort_insertion) in_order [sample_a]) 0%nat).1.
Proof.
  split; [exact in_order_RangeOrder|]. split; [exact in_reverse_RangeOrder|].
  by vm_compute.
Qed.

(** C7, amended. The groups returned by [groupEntriesByMonth] do not
    depend on the order in which the map of groups is visited; so two
    runs on the same input give the same listing whenever they visit the
    attribute maps in the same order. (The order of the attributes inside
    a tag is the order of that run.) *)
Theorem pipeline_deterministic_up_to_attributes
    (sort_Sort : ∀ T, sort.Interface T → T → T)
    (range1 range2 : list (time.Time * entryGroup) → list (time.Time * entryGroup))
    (mapiter : nat → list (string * string) → list (string * string))
    (entries : list readingListEntry) (k : nat) :
  sort.SortContract sort_Sort →
  RangeOrder range1 →
  RangeOrder range2 →
  groupEntriesByMonth sort_Sort range1 entries = groupEntriesByMonth sort_Sort range2 entries ∧
  makeListHTML mapiter (groupEntriesByMonth sort_Sort range1 entries) k
  = makeListHTML mapiter (groupEntriesByMonth sort_Sort range2 entries) k.
Proof.
  intros HSort Hrange1 Hrange2.
  pose proof (groupEntriesByMonth_order_irrelevant sort_Sort HSort range1 range2
                Hrange1 Hrange2 entries) as Heq.
  split; [exact Heq|]. by rewrite Heq.
Qed.

Lemma pipeline_deterministic_up_to_attributes_witness :
  groupEntriesByMonth (@sort.Sort_insertion) in_order [sample_a; sample_b; sample_undated]
  = groupEntriesByMonth (@sort.Sort_insertion) in_reverse [sample_a; sample_b; sample_undated] ∧
  makeListHTML (λ _, in_reverse)
    (groupEntriesByMonth (@sort.Sort_insertion) in_order [sample_a; sample_b; sample_undated]) 0%nat
  = makeListHTML (λ _, in_reverse)
      (groupEntriesByMonth (@sort.Sort_insertion) in_reverse [sample_a; sample_b; sample_undated]) 0%nat.
Proof.
  apply (pipeline_deterministic_up_to_attributes (@sort.Sort_insertion) in_order in_reverse
           (λ _, in_reverse) [sample_a; sample_b; sample_undated] 0%nat).
  - exact Sort_insertion_contract.
  - exact in_order_RangeOrder.
  - exact in_reverse_RangeOrder.
Defined.

(* ===================================================================== *)
(** ** The Page Assembler and the Site Writer *)
(* ===================================================================== *)

(** C9. [renderHTMLPage] returns an error exactly when the embedded page
    template does not parse, and then it returns that error whatever the
    title, title bar, content and extra head content are: it has no other
    failure. *)
Theorem renderHTMLPage_fails_iff_malformed
    (tmpl : template.Engine) (htmlPageTemplate : string)
    (title titleBar pageContent extraHeadeContent : string) :
  (∀ err, (renderHTMLPage tmpl htmlPageTemplate title titleBar pageContent extraHeadeContent).2
          = Some err
          ↔ template.Parse tmpl "page" htmlPageTemplate = inr err) ∧
  (∀ err, template.Parse tmpl "page" htmlPageTemplate = inr err →
     ∀ title' titleBar' pageContent' extraHeadeContent' : string,
       renderHTMLPage tmpl htmlPageTemplate title' titleBar' pageContent' extraHeadeContent'
       = (EmptyString, Some err)).
Proof.
  unfold renderHTMLPage. split.
  - intros err. destruct (template.Parse tmpl "page" htmlPageTemplate) as [tpl|err'];
      cbn [snd]; split; intros H; congruence.
  - intros err ->. done.
Qed.

(** C10. If the embedded page template parses, [renderHTMLPage] returns a
    nil error whether or not the execution of the template succeeds: the
    error of [tpl.Execute] is dropped, and the bytes returned are those
    that the execution wrote to the buffer, which on a failure is what
    was written before it. *)
Theorem renderHTMLPage_drops_Execute_error
    (tmpl : template.Engine) (htmlPageTemplate : string) (tpl : template.Template tmpl)
    (title titleBar pageContent extraHeadeContent : string) :
  template.Parse tmpl "page" htmlPageTemplate = inl tpl →
  renderHTMLPage tmpl htmlPageTemplate title titleBar pageContent extraHeadeContent
  = ((template.Execute tmpl tpl
        (template.mkPageData title pageContent titleBar extraHeadeContent)).1, None).
Proof. unfold renderHTMLPage. by intros ->. Qed.

Lemma renderHTMLPage_drops_Execute_error_witness :
  (template.Execute minitemplate.engine
     [minitemplate.Text "<html><title>"; minitemplate.Field "Titel";
      minitemplate.Text "</title></html>"]
     (template.mkPageData "T" "C" "B" "E")).2
  = Some "template: page: can't evaluate field Titel"%string ∧
  renderHTMLPage minitemplate.engine misspelt_template "T" "B" "C" "E"
  = ((template.Execute minitemplate.engine
        [minitemplate.Text "<html><title>"; minitemplate.Field "Titel";
         minitemplate.Text "</title></html>"]
        (template.mkPageData "T" "C" "B" "E")).1, None).
Proof.
  split; [reflexivity|].
  apply (renderHTMLPage_drops_Execute_error minitemplate.engine misspelt_template
           [minitemplate.Text "<html><title>"; minitemplate.Field "Titel";
            minitemplate.Text "</title></html>"] "T" "B" "C" "E").
  reflexivity.
Defined.

(** C8 does not hold of the code: when the template parses but its
    execution fails, the error is lost in [renderHTMLPage], and
    [GenerateSite] writes the part of the page that was produced and
    returns nil. Here the template names the field [Titel], which the
    page data does not have. *)
Theorem GenerateSite_writes_partial_page :
  minitemplate.Parse "page" misspelt_template
  = inl [minitemplate.Text "<html><title>"; minitemplate.Field "Titel";
         minitemplate.Text "</title></html>"] ∧
  (∀ data,
     minitemplate.Execute
       [minitemplate.Text "<html><title>"; minitemplate.Field "Titel";
        minitemplate.Text "</title></html>"] data
     = ("<html><title>"%string, Some "template: page: can't evaluate field Titel"%string)) ∧
  os.files sample_world !! ".site/index.html"%string = None ∧
  (GenerateSite (@sort.Sort_insertion) in_order (λ _, in_order) minitemplate.engine
     misspelt_template sample_Unmarshal sample_world).1 = None ∧
  os.files
    (GenerateSite (@sort.Sort_insertion) in_order (λ _, in_order) minitemplate.engine
       misspelt_template sample_Unmarshal sample_world).2 !! ".site/index.html"%string
  = Some "<html><title>"%string.
Proof.
  split; [by vm_compute|]. split; [done|]. split; [by vm_compute|].
  split; by vm_compute.
Qed.
